(** * jnipp.hpp: a shallow embedding of JNI++ v0.0.1

    The header has two namespaces.  [ornew] holds the manual-lifetime cell
    [storage<T>], the error classes and the result type [expected<R,E>] with
    its builder [unexpected<E>].  [jnipp] holds the compile-time machinery
    ([resolver], [pack], [pack_join], [pack_join_all], [mangler]) and the
    run-time wrappers ([environment], [clas], [method]).

    Template metafunctions are embedded as functions on syntax trees of types;
    a specialisation that does not exist (no nested [type] or [name]) is
    [None].  Run-time code is embedded in a state monad over the trace of
    constructor and destructor calls and over the heap of error objects. *)

From Stdlib Require Import Ascii String.
From stdpp Require Import gmap strings list option.

Set Warnings "-register-all".

(** ** A small state monad *)

Definition State (S A : Type) : Type := S -> A * S.

Definition ret {S A} (a : A) : State S A := fun s => (a, s).

Definition bind {S A B} (m : State S A) (k : A -> State S B) : State S B :=
  fun s => let (a, s') := m s in k a s'.

Declare Scope state_scope.
Delimit Scope state_scope with state.
Notation "'let!' x := m 'in' k" := (bind m (fun x => k))
  (at level 10, x pattern, m at level 100, k at level 200) : state_scope.
Notation "'do!' m 'in' k" := (bind m (fun _ => k))
  (at level 10, m at level 100, k at level 200) : state_scope.

Module ornew.

(** *** [template<typename Type> class storage] *)
Section storage.
Context {T : Type}.

(** What the aligned buffer [buf] contains.  [indeterminate]: never written,
    or the object that lived there has been destroyed.  [assigned v]: the
    value [v] was written by [T]'s copy assignment, no constructor ran.
    [object id v]: a [T] built in place by the placement new of [construct];
    [id] names that instance (its position in the trace). *)
Inductive slot : Type :=
| indeterminate
| assigned (v : T)
| object (id : nat) (v : T).

(** Calls into [T] made by the cell. *)
Inductive event : Type :=
| Construct (id : nat) (v : T)          (* placement new of type(args...) *)
| Assign (target : slot) (a : option T) (* copy assignment through raw() *)
| Destroy (target : slot).              (* raw()->~type() *)

Record storage : Type := { buf : slot; flag : bool }.

Definition trace : Type := list event.

Definition emit (e : event) : State trace unit := fun tr => (tt, tr ++ [e]).
Definition fresh_id : State trace nat := fun tr => (length tr, tr).

(** [raw()] points into the buffer; reading through it yields the value
    there, or nothing definite when the bytes are indeterminate. *)
Definition raw (c : storage) : option T :=
  match buf c with
  | indeterminate => None
  | assigned v => Some v
  | object _ v => Some v
  end.

Definition written (a : option T) : slot :=
  match a with
  | Some v => assigned v
  | None => indeterminate
  end.

(** [void destruct()].  The destructor call ends the life of what is in the
    buffer, whose bytes are indeterminate from then on. *)
Definition destruct (c : storage) : State trace storage :=
  if flag c then
    (do! emit (Destroy (buf c)) in
     ret {| buf := indeterminate; flag := false |})%state
  else ret c.

(** [self const& construct(Args&&... a)]; [v] is the value [type(a...)]. *)
Definition construct (v : T) (c : storage) : State trace storage :=
  (let! c1 := destruct c in
   let! id := fresh_id in
   do! emit (Construct id v) in
   ret {| buf := object id v; flag := true |})%state.

(** [void assign(type const& a)]; [a] is what the reference designates
    ([None] when it refers to indeterminate bytes).  The flag is not
    written. *)
Definition assign (a : option T) (c : storage) : State trace storage :=
  (let! c1 := destruct c in
   do! emit (Assign (buf c1) a) in
   ret {| buf := written a; flag := flag c1 |})%state.

(** [void operator=(type const& a)] *)
Definition op_assign (a : option T) (c : storage) : State trace storage :=
  assign a c.

(** A cell before any member initialiser ran: the buffer is indeterminate
    and so is the flag, whose garbage value is the parameter [f0]. *)
Definition uninitialized (f0 : bool) : storage :=
  {| buf := indeterminate; flag := f0 |}.

(** [storage(std::nullptr_t) : flag{false}] *)
Definition storage_nullptr : storage :=
  {| buf := indeterminate; flag := false |}.

(** [storage(self const& a) { assign( *a.raw()); }] *)
Definition storage_copy (f0 : bool) (a : storage) : State trace storage :=
  assign (raw a) (uninitialized f0).

(** [storage(type const& a) { assign(a); }] *)
Definition storage_value (f0 : bool) (a : T) : State trace storage :=
  assign (Some a) (uninitialized f0).

(** [storage(constructor_tag, Args&&... a) { construct(a...); }] *)
Definition storage_construct (f0 : bool) (v : T) : State trace storage :=
  construct v (uninitialized f0).

(** [~storage() { destruct(); }] *)
Definition teardown (c : storage) : State trace storage := destruct c.

(** The implicitly declared [storage& operator=(storage const&)]: the class
    declares a copy constructor and a destructor but no copy assignment, so
    [b = a] copies member by member, the bytes of the buffer and the flag,
    and calls nothing on [T]. *)
Definition copy_assign (a : storage) (c : storage) : State trace storage :=
  ret {| buf := buf a; flag := flag a |}.

(** The three member functions the class writes out to change a cell:
    [construct], [destruct] and [assign] ([operator=(type const&)] is
    [assign]).  Every constructor is one of them made on the uninitialised
    cell: [storage(nullptr)] is [uninitialized false] with no call, the copy
    constructor and [storage(type const&)] are an [assign],
    [storage(constructor_tag, ...)] is a [construct].  The implicit
    [copy_assign] is not among them. *)
Inductive call : Type :=
| call_construct (v : T)
| call_destruct
| call_assign (a : option T).

Definition step (o : call) (c : storage) : State trace storage :=
  match o with
  | call_construct v => construct v c
  | call_destruct => destruct c
  | call_assign a => assign a c
  end.

Fixpoint run (os : list call) (c : storage) : State trace storage :=
  match os with
  | [] => ret c
  | o :: os' => (let! c' := step o c in run os' c')%state
  end.

(** The whole life of a cell whose flag starts as [f0]: the calls, then
    the destructor. *)
Definition lifetime (f0 : bool) (os : list call) : State trace storage :=
  (let! c := run os (uninitialized f0) in teardown c)%state.

(** The constructed instances on which the destructor ran, in order. *)
Definition destroyed_of (e : event) : list nat :=
  match e with
  | Destroy (object id _) => [id]
  | _ => []
  end.

Definition destroyed (tr : trace) : list nat :=
  concat (map destroyed_of tr).

(** Destructor calls on a buffer that holds no constructed instance. *)
Definition stray (e : event) : bool :=
  match e with
  | Destroy (object _ _) => false
  | Destroy _ => true
  | _ => false
  end.

Definition constructed_of (e : event) : list nat :=
  match e with
  | Construct id _ => [id]
  | _ => []
  end.

Definition constructed (tr : trace) : list nat :=
  concat (map constructed_of tr).

(** The ghost bookkeeping behind "the same instance": instance names are
    positions in the trace, an instance sitting in the buffer has not been
    destroyed, and none has been destroyed twice. *)
Definition tracked (c : storage) (tr : trace) : Prop :=
  NoDup (destroyed tr) /\
  (forall i, i ∈ destroyed tr -> i < length tr) /\
  (forall i v, buf c = object i v -> i < length tr /\ i ∉ destroyed tr).

(** A flag that is set vouches for a constructed instance in the buffer. *)
Definition vouched (c : storage) : Prop :=
  flag c = true -> exists i v, buf c = object i v.

(** The cell is occupied and holds [v]. *)
Definition holds (c : storage) (v : T) : Prop :=
  flag c = true /\ raw c = Some v.
(** The instance the cell still has to destroy: the one in the buffer, when
    the flag vouches for it. *)
Definition pending (c : storage) : list nat :=
  match buf c with
  | object i _ => if flag c then [i] else []
  | _ => []
  end.

(** Every instance constructed so far has been destroyed, in the order of
    construction, except the one the cell still holds. *)
Definition balanced (c : storage) (tr : trace) : Prop :=
  destroyed tr ++ pending c = constructed tr /\
  (forall i v, buf c = object i v -> flag c = true).

(** Calls that involve no instance constructed in a cell: copy assignments,
    and destructor calls on a buffer without one. *)
Definition instance_free (e : event) : bool :=
  match e with
  | Construct _ _ => false
  | Destroy (object _ _) => false
  | _ => true
  end.

End storage.

Arguments slot : clear implicits.
Arguments event : clear implicits.
Arguments storage : clear implicits.
Arguments trace : clear implicits.
Arguments call : clear implicits.

(** *** [namespace error] *)
Module error.
(** [struct basic_error { std::string _message; ... }] *)
Record basic_error : Type := { get_message : string }.

(** [basic_error(){}] *)
Definition basic_error_default : basic_error := {| get_message := "" |}.

(** [struct runtime_error : public basic_error]; its constructor forwards
    every argument to the base. *)
Record runtime_error : Type := { runtime_base : basic_error }.

Definition runtime_error_new (m : string) : runtime_error :=
  {| runtime_base := {| get_message := m |} |}.
End error.

(** *** [std::unique_ptr<error>] over a heap of error objects *)
Section unique_ptr.
Context {E : Type}.

Definition loc : Type := positive.
Definition unique_ptr : Type := option loc.

(** [new Error{...}] *)
Definition new_error (err : E) : State (gmap loc E) loc :=
  fun h => let l := fresh (dom h) in (l, <[l := err]> h).

(** [delete p] ([delete nullptr] does nothing). *)
Definition delete_error (p : unique_ptr) : State (gmap loc E) unit :=
  fun h => (tt, match p with Some l => delete l h | None => h end).

(** [unique_ptr(unique_ptr&& u)]: the new pointer and what is left in [u]. *)
Definition unique_ptr_move (u : unique_ptr) : unique_ptr * unique_ptr :=
  (u, None).

(** [operator=(unique_ptr&& u)], that is [reset(u.release())]: the pointee
    held so far is deleted. *)
Definition unique_ptr_move_assign (self u : unique_ptr)
  : State (gmap loc E) (unique_ptr * unique_ptr) :=
  (do! delete_error self in ret (u, None))%state.

(** [~unique_ptr()] *)
Definition unique_ptr_dtor (p : unique_ptr) : State (gmap loc E) unit :=
  delete_error p.
End unique_ptr.

(** *** [class unexpected] and [class expected] *)
Section expected.
Context {R E : Type}.

(** [unexpected]'s only member is [e]; the field is renamed because
    [expected] has an [e] as well. *)
Record unexpected : Type := { unexpected_e : unique_ptr }.

(** [unexpected(E&&... e) : e{ new Error{ e... } }]; [err] is the error
    built from the arguments. *)
Definition unexpected_new (err : E) : State (gmap loc E) unexpected :=
  (let! l := new_error err in ret {| unexpected_e := Some l |})%state.

(** [std::unique_ptr<error> move_error() { return std::move(e); }] *)
Definition move_error (u : unexpected) : unique_ptr * unexpected :=
  let (p, rest) := unique_ptr_move (unexpected_e u) in
  (p, {| unexpected_e := rest |}).

(** [~unexpected()] (implicit) *)
Definition unexpected_dtor (u : unexpected) : State (gmap loc E) unit :=
  unique_ptr_dtor (unexpected_e u).

(** [raise<Error>(args...)] returns [unexpected<Error>{ args... }]. *)
Definition raise (err : E) : State (gmap loc E) unexpected :=
  unexpected_new err.

Record expected : Type := { e : unique_ptr; r : storage R }.

(** The memory an [expected<R,E>] lives in: the calls made on [R] by its
    cell, and the heap of errors. *)
Record world : Type := { calls : trace R; heap : gmap loc E }.

Definition on_calls {A} (m : State (trace R) A) : State world A :=
  fun w => let (a, tr) := m (calls w) in (a, {| calls := tr; heap := heap w |}).

Definition on_heap {A} (m : State (gmap loc E) A) : State world A :=
  fun w => let (a, h) := m (heap w) in (a, {| calls := calls w; heap := h |}).

(** [expected() : r{ nullptr }] *)
Definition expected_default : expected :=
  {| e := None; r := storage_nullptr |}.

(** [expected(storage<result> a) : r{ a }] *)
Definition expected_storage (f0 : bool) (a : storage R) : State world expected :=
  (let! r0 := on_calls (storage_copy f0 a) in ret {| e := None; r := r0 |})%state.

(** [expected(result a) : r{ a }] *)
Definition expected_value (f0 : bool) (a : R) : State world expected :=
  (let! r0 := on_calls (storage_value f0 a) in ret {| e := None; r := r0 |})%state.

(** [expected(unexpected<error>&& e) : r{ nullptr }
    { this->e = std::move(e.move_error()); }]
    Returns the new object and what is left of the builder. *)
Definition expected_unexpected (u : unexpected)
  : State world (expected * unexpected) :=
  let this := {| e := None; r := storage_nullptr |} in
  let (tmp, u') := move_error u in
  (let! moved := on_heap (unique_ptr_move_assign (e this) tmp) in
   ret ({| e := fst moved; r := r this |}, u'))%state.

(** The implicit [expected(expected&&)]: members in declaration order, [e]
    by [unique_ptr]'s move constructor, [r] by [storage(self const&)]
    because [storage] declares no move constructor.  Returns the new
    object and what is left of the source. *)
Definition expected_move (f0 : bool) (a : expected)
  : State world (expected * expected) :=
  let (e1, rest) := unique_ptr_move (e a) in
  (let! r1 := on_calls (storage_copy f0 (r a)) in
   ret ({| e := e1; r := r1 |}, {| e := rest; r := r a |}))%state.

(** The implicit [~expected()]: members in reverse order, [r] then [e]. *)
Definition expected_dtor (a : expected) : State world unit :=
  (do! on_calls (teardown (r a)) in on_heap (unique_ptr_dtor (e a)))%state.

(** The three states of a result. *)
Definition is_default (x : expected) : Prop :=
  e x = None /\ flag (r x) = false.

Definition is_failure (w : world) (x : expected) (l : loc) : Prop :=
  e x = Some l /\ is_Some (heap w !! l) /\ flag (r x) = false.

Definition is_success (x : expected) : Prop :=
  e x = None /\ flag (r x) = true.

(** **** Programs over builders and results

    Objects are named; a statement names the objects it uses.  A statement
    on a name that is not live, or is of the other class, does nothing.
    Moving from an object leaves it live: its destructor still runs
    later. *)
Inductive obj : Type :=
| a_builder (u : unexpected)
| a_result (x : expected).

Definition pointer (o : obj) : unique_ptr :=
  match o with
  | a_builder u => unexpected_e u
  | a_result x => e x
  end.

Record program_state : Type := { live : gmap nat obj; mem : world }.

Inductive stmt : Type :=
| s_raise (err : E)                 (* auto n = raise<E>(...) *)
| s_default                         (* expected n; *)
| s_value (f0 : bool) (a : R)       (* expected n{ a }; *)
| s_convert (u : nat)               (* expected n{ std::move(u) }; *)
| s_move (f0 : bool) (x : nat)      (* expected n{ std::move(x) }; *)
| s_end (n : nat).                  (* n goes out of scope *)

Definition declare (o : obj) (objs : gmap nat obj) : gmap nat obj :=
  <[fresh (dom objs) := o]> objs.

Definition exec (s : stmt) (p : program_state) : program_state :=
  match s with
  | s_raise err =>
      let (u, w) := on_heap (raise err) (mem p) in
      {| live := declare (a_builder u) (live p); mem := w |}
  | s_default =>
      {| live := declare (a_result expected_default) (live p); mem := mem p |}
  | s_value f0 a =>
      let (x, w) := expected_value f0 a (mem p) in
      {| live := declare (a_result x) (live p); mem := w |}
  | s_convert n =>
      match live p !! n with
      | Some (a_builder u) =>
          let '(x, u', w) := expected_unexpected u (mem p) in
          {| live := declare (a_result x) (<[n := a_builder u']> (live p));
             mem := w |}
      | _ => p
      end
  | s_move f0 n =>
      match live p !! n with
      | Some (a_result a) =>
          let '(x, a', w) := expected_move f0 a (mem p) in
          {| live := declare (a_result x) (<[n := a_result a']> (live p));
             mem := w |}
      | _ => p
      end
  | s_end n =>
      match live p !! n with
      | Some (a_builder u) =>
          let (_, w) := on_heap (unexpected_dtor u) (mem p) in
          {| live := delete n (live p); mem := w |}
      | Some (a_result x) =>
          let (_, w) := expected_dtor x (mem p) in
          {| live := delete n (live p); mem := w |}
      | None => p
      end
  end.

Definition exec_all (ss : list stmt) (p : program_state) : program_state :=
  foldl (fun q s => exec s q) p ss.

Definition start : program_state :=
  {| live := ∅; mem := {| calls := []; heap := ∅ |} |}.

(** Among the objects [objs], [n] owns the error at [l]. *)
Definition owns (objs : gmap nat obj) (n : nat) (l : loc) : Prop :=
  exists o, objs !! n = Some o /\ pointer o = Some l.

(** Every pointer held is to an error on the heap, no error has two
    owners, and every error on the heap has an owner. *)
Definition exclusive_ownership (p : program_state) : Prop :=
  (forall n l, owns (live p) n l -> is_Some (heap (mem p) !! l)) /\
  (forall n1 n2 l, owns (live p) n1 l -> owns (live p) n2 l -> n1 = n2) /\
  (forall l, is_Some (heap (mem p) !! l) -> exists n, owns (live p) n l).

(** No result of the program is occupied, and no buffer of a result holds a
    constructed instance. *)
Definition never_occupied (p : program_state) : Prop :=
  (forall n x, live p !! n = Some (a_result x) ->
     flag (r x) = false /\ forall i v, buf (r x) <> object i v) /\
  Forall (fun ev => instance_free ev = true) (calls (mem p)).
End expected.

Arguments unexpected : clear implicits.
Arguments expected : clear implicits.
Arguments world : clear implicits.
Arguments obj : clear implicits.
Arguments program_state : clear implicits.
Arguments stmt : clear implicits.

End ornew.

Module jnipp.
Import ornew.

(** *** JNI handles and the function table (jni.h, an external header)

    A [JNIEnv] is known here only through the two lookups the wrappers call;
    [NULL] is [None]. *)
Definition jclass : Type := positive.
Definition jmethodID : Type := positive.

Record JNIEnv : Type := {
  FindClass : string -> option jclass;
  GetMethodID : jclass -> string -> string -> option jmethodID
}.

(** [struct jni_error : public ornew::error::runtime_error { JNIEnv* env; }] *)
Record jni_error : Type := {
  jni_error_base : error.runtime_error;
  jni_error_env : JNIEnv
}.

Definition jni_error_new (env : JNIEnv) (m : string) : jni_error :=
  {| jni_error_base := error.runtime_error_new m; jni_error_env := env |}.

Definition message (err : jni_error) : string :=
  error.get_message (error.runtime_base (jni_error_base err)).

(** [jni_raise(env, args...)] is [ornew::raise<jni_error>(env, args...)]. *)
Definition jni_raise (env : JNIEnv) (m : string)
  : State (gmap loc jni_error) unexpected :=
  raise (jni_error_new env m).

(** *** Types

    [ctype]: the native types a signature is written with.  [jtype]: the JNI
    types of jni.h, the tagged classes [defined<L>], pointers and function
    types over them.  In C++ a parameter of function type is adjusted to a
    pointer, no function returns a function and no parameter list holds
    [void]; the trees below are not restricted that way ([resolver_type]
    accounts for the first two). *)
Inductive ctype : Type :=
| c_void
| c_bool
| c_char
| c_unsigned_char
| c_int16_t
| c_int32_t
| c_int64_t
| c_float
| c_double
| c_function (Return : ctype) (Args : list ctype).

Definition pack : Type := list ascii.

(** A class usable as [L] in [defined<L>]: it has a nested [name]. *)
Record name_tag : Type := { name : pack }.

Inductive jtype : Type :=
| jvoid
| jboolean
| jbyte
| jchar
| jshort
| jint
| jlong
| jfloat
| jdouble
| defined (L : name_tag)
| pointer_to (t : jtype)
| function (Return : jtype) (Args : list jtype).

Definition is_function (t : ctype) : bool :=
  match t with
  | c_function _ _ => true
  | _ => false
  end.

(** *** [template <typename Type> struct resolver]

    [resolver_type t] is the nested [resolver<t>::type]; the primary template
    is empty, so it is [None] where no specialisation is written.  In
    [Return(Args...)] a parameter written with a function type has the
    pointer to it as its type, and [resolver] has no specialisation for a
    pointer; a function type whose return type is a function type does not
    exist. *)
Fixpoint resolver_type (t : ctype) : option jtype :=
  match t with
  | c_void => Some jvoid
  | c_bool => Some jboolean
  | c_char => Some jbyte
  | c_unsigned_char => Some jchar
  | c_int16_t => Some jshort
  | c_int32_t => Some jint
  | c_int64_t => Some jlong
  | c_float => None
  | c_double => None
  | c_function Return Args =>
      if is_function Return then None
      else
        ret_t ← resolver_type Return;
        args_t ← mapM (fun a => if is_function a then None
                                else resolver_type a) Args;
        Some (function ret_t args_t)
  end.

(** [resolver<A>::type] for a parameter written with type [a]. *)
Definition resolver_parameter (a : ctype) : option jtype :=
  if is_function a then None else resolver_type a.

(** [resolver<Return(Args...)>::return_type], the unresolved [Return]. *)
Definition resolver_return_type (t : ctype) : option ctype :=
  match t with
  | c_function Return _ => Some Return
  | _ => None
  end.

(** [template <typename Type> using type = typename resolver<Type>::type;] *)
Definition type (t : ctype) : option jtype := resolver_type t.

(** *** [template<char... values> struct pack] *)

(** [const char pack<values...>::str[] = { values..., '\0' };] *)
Definition str (p : pack) : list ascii := p ++ [Ascii.zero].

(** A [const char*] read as a C string: the characters before the first
    NUL. *)
Fixpoint c_string (a : list ascii) : string :=
  match a with
  | [] => EmptyString
  | ch :: rest =>
      if Ascii.eqb ch Ascii.zero then EmptyString else String ch (c_string rest)
  end.

Module detail.
(** [_pack_join<pack<left...>, pack<right...>>::type] *)
Definition _pack_join (left right : pack) : pack := left ++ right.

(** [_pack_join_all<Left, Right, Rest...>::type] *)
Fixpoint _pack_join_all (Left Right : pack) (Rest : list pack) : pack :=
  match Rest with
  | [] => _pack_join Left Right
  | Next :: Rest' => _pack_join_all (_pack_join Left Right) Next Rest'
  end.
End detail.

(** [template<typename L, typename R> using pack_join] *)
Definition pack_join (L R : pack) : pack := detail._pack_join L R.

(** [template<typename... T> using pack_join_all]; the primary template
    takes at least two arguments. *)
Definition pack_join_all (Ts : list pack) : option pack :=
  match Ts with
  | Left :: Right :: Rest => Some (detail._pack_join_all Left Right Rest)
  | _ => None
  end.

(** *** [template<typename Type, typename = void> struct mangler]

    [mangler t] is the nested [mangler<t>::name]; the primary template is
    empty. *)
Fixpoint mangler (t : jtype) : option pack :=
  match t with
  | jvoid => None
  | jboolean => Some ["Z"%char]
  | jbyte => Some ["B"%char]
  | jchar => Some ["C"%char]
  | jshort => Some ["S"%char]
  | jint => Some ["I"%char]
  | jlong => Some ["L"%char]
  | jfloat => Some ["F"%char]
  | jdouble => Some ["D"%char]
  | defined L => pack_join_all [["L"%char]; name L; [";"%char]]
  | pointer_to t' =>
      n ← mangler t';
      Some (pack_join ["["%char] n)
  | function Return Args =>
      args_n ← mapM mangler Args;
      ret_n ← mangler Return;
      pack_join_all ([["("%char]] ++ args_n ++ [[")"%char]; ret_n])
  end.

(** [template<typename Type> using mangle = typename mangler<Type>::name;] *)
Definition mangle (t : jtype) : option pack := mangler t.

(** [struct jstring_define] and [using jstring = defined<jstring_define>] *)
Definition jstring_define : name_tag :=
  {| name := ["j"; "a"; "v"; "a"; "/"; "l"; "a"; "n"; "g"; "/";
              "S"; "t"; "r"; "i"; "n"; "g"]%char |}.

Definition jstring : jtype := defined jstring_define.

(** *** Run-time wrappers *)

(** [std::string::c_str()] as the callee reads it. *)
Definition c_str (s : string) : string := c_string (list_ascii_of_string s).

(** [class environment { JNIEnv* env; ... }] *)
Record environment : Type := { env : JNIEnv }.

(** [JNIEnv* attach() { return env; }] *)
Definition attach (self : environment) : JNIEnv := env self.

(** [class clas { environment* env; jclass c; ... }] *)
Record clas : Type := { clas_env : environment; c : jclass }.

(** [class method_id { environment* env; jclass cls; jmethodID id; ... }] *)
Record method_id : Type := {
  method_env : environment;
  cls : jclass;
  id : jmethodID
}.

(** [JNIPP_METHOD_MAP] specialises [method<R>] for [void] and the eight
    primitives; each specialisation derives from [method_id] and adds no
    member. *)
Definition method_defined (R : jtype) : bool :=
  match R with
  | jvoid | jboolean | jbyte | jchar | jshort | jint | jlong | jfloat
  | jdouble => true
  | _ => false
  end.

(** An object of [method<R>] is its [method_id] base: the specialisations
    add no data member. *)
Record method : Type := { method_base : method_id }.

(** The numbers of initializers a braced list [method<R>{ ... }] can have.
    The specialisations declare no constructor and do not inherit the one of
    [method_id] (there is no using-declaration), and [method_id] has no
    default constructor; what is left is one initializer: a [method<R>] for
    the implicit copy or move constructor, or, where a class with a public
    base is an aggregate, a [method_id] for its only element, the base. *)
Definition method_braced_arities : list nat := [1].

Definition method_braced (n : nat) : bool :=
  bool_decide (n ∈ method_braced_arities).

(** [template<typename T> using jni_expected = ornew::expected<T,jni_error>;] *)
Definition jni_expected (T : Type) : Type := expected T.

(** [jni_expected<clas> environment::find_class(std::string name)].  The
    builder returned by [jni_raise] is a temporary of the return statement
    and is destroyed once the result is built from it. *)
Definition find_class (self : environment) (name : string) (f0 : bool)
  : State (world clas jni_error) (jni_expected clas) :=
  match FindClass (env self) (c_str name) with
  | None =>
      (let! u := on_heap (jni_raise (env self)
                   ("Not found: " +:+ name +:+ " in env::find_class function.")) in
       let! res := expected_unexpected u in
       do! on_heap (unexpected_dtor (snd res)) in
       ret (fst res))%state
  | Some found => expected_value f0 {| clas_env := self; c := found |}
  end.

(** The body of [clas::get_method] once [mangle<type>::str] and the return
    type are known.  Its last statement is
    [return method<R>{ env, c, id };], a braced list of three initializers:
    the body is [None] when no such list is well-formed. *)
Definition get_method_body (descriptor : string) (self : clas) (name : string)
    (f0 : bool)
  : option (State (world method jni_error) (jni_expected method)) :=
  if method_braced 3 then
    Some
      match GetMethodID (attach (clas_env self)) (c self) (c_str name)
                        descriptor with
      | None =>
          (let! u := on_heap (jni_raise (attach (clas_env self))
                       ("Not found: " +:+ name
                        +:+ " in clas::get_method function.")) in
           let! res := expected_unexpected u in
           do! on_heap (unexpected_dtor (snd res)) in
           ret (fst res))%state
      | Some found =>
          expected_value f0
            {| method_base :=
                 {| method_env := clas_env self; cls := c self; id := found |} |}
      end
  else None.

(** [typename type::return_type] for a [type] among the resolved types: the
    qualified name needs a class with such a member.  [void], the JNI
    scalars, pointers and function types are not classes, and
    [template<typename> struct defined {};] declares no member. *)
Definition nested_return_type (t : jtype) : option jtype :=
  match t with
  | defined _ => None
  | _ => None
  end.

(** [template<typename Signature, typename type = jnipp::type<Signature>>
    auto get_method(std::string name)
      -> jni_expected<method<typename type::return_type>>]
    with the default template argument.  [None]: the call does not
    instantiate (a nested type named in the declaration or the body does
    not exist). *)
Definition get_method (Signature : ctype) (self : clas) (name : string)
    (f0 : bool)
  : option (State (world method jni_error) (jni_expected method)) :=
  type ← type Signature;
  R ← nested_return_type type;
  descriptor ← mangle type;
  if method_defined R
  then get_method_body (c_string (str descriptor)) self name f0
  else None.

(** [msg] contains [part]. *)
Definition contains (msg part : string) : Prop :=
  exists before after, msg = before +:+ part +:+ after.

(** The specification's table of reserved letters (section 4.2: Z, B, C, S,
    I, J, F, D for boolean, byte, char, short, int, long, float, double),
    written from the specification and not from the header, to compare
    [mangler] with. *)
Definition reserved_letter (t : jtype) : option ascii :=
  match t with
  | jboolean => Some "Z"%char
  | jbyte => Some "B"%char
  | jchar => Some "C"%char
  | jshort => Some "S"%char
  | jint => Some "I"%char
  | jlong => Some "J"%char
  | jfloat => Some "F"%char
  | jdouble => Some "D"%char
  | _ => None
  end.

Definition primitives : list jtype :=
  [jboolean; jbyte; jchar; jshort; jint; jlong; jfloat; jdouble].

(** Ways of bracketing a join of several packs. *)
Inductive bracketing : Type :=
| leaf (p : pack)
| join (l r : bracketing).

Fixpoint leaves (b : bracketing) : list pack :=
  match b with
  | leaf p => [p]
  | join l r => leaves l ++ leaves r
  end.

Fixpoint joined (b : bracketing) : pack :=
  match b with
  | leaf p => p
  | join l r => pack_join (joined l) (joined r)
  end.


(** *** What a type mentions *)

Fixpoint mentions_void (t : jtype) : bool :=
  match t with
  | jvoid => true
  | pointer_to t' => mentions_void t'
  | function Return Args => mentions_void Return || existsb mentions_void Args
  | _ => false
  end.

Fixpoint c_mentions_void (t : ctype) : bool :=
  match t with
  | c_void => true
  | c_function Return Args =>
      c_mentions_void Return || existsb c_mentions_void Args
  | _ => false
  end.

Fixpoint mentions_floating (t : ctype) : bool :=
  match t with
  | c_float | c_double => true
  | c_function Return Args =>
      mentions_floating Return || existsb mentions_floating Args
  | _ => false
  end.

(** Types built from [void], the six integral JNI scalars and function
    types only. *)
Fixpoint integral_shape (t : jtype) : bool :=
  match t with
  | jvoid | jboolean | jbyte | jchar | jshort | jint | jlong => true
  | function Return Args => integral_shape Return && forallb integral_shape Args
  | _ => false
  end.

(** No name tag in the type has a NUL among its characters. *)
Fixpoint names_nul_free (t : jtype) : bool :=
  match t with
  | defined L => forallb (fun ch => negb (Ascii.eqb ch Ascii.zero)) (name L)
  | pointer_to t' => names_nul_free t'
  | function Return Args => names_nul_free Return && forallb names_nul_free Args
  | _ => true
  end.

(** *** [detail::pack_to_string]

    What [s += c] can be given: a [char], a [const char*] (read up to its
    first NUL) or a [std::string]. *)
Inductive piece : Type :=
| a_char (ch : ascii)
| a_c_string (a : list ascii)
| a_string (t : string).

(** [s += c] *)
Definition append_piece (s : string) (x : piece) : string :=
  match x with
  | a_char ch => s +:+ String ch EmptyString
  | a_c_string a => s +:+ c_string a
  | a_string t => s +:+ t
  end.

(** [void pack_to_string(std::string&)] and
    [void pack_to_string(std::string& s, const First& c, const Rest&... rest)];
    the result is [s] after the call. *)
Fixpoint pack_to_string (s : string) (xs : list piece) : string :=
  match xs with
  | [] => s
  | x :: rest => pack_to_string (append_piece s x) rest
  end.

(** What one piece appends. *)
Definition text (x : piece) : string :=
  match x with
  | a_char ch => String ch EmptyString
  | a_c_string a => c_string a
  | a_string t => t
  end.

(** *** [jni_error::fatal]

    The runtime does not return from [FatalError]; the call made is what is
    observed. *)
Inductive runtime_call : Type :=
| FatalError (on : JNIEnv) (msg : string).

(** [void fatal() { env->FatalError(get_message().c_str()); }] *)
Definition fatal (self : jni_error) : runtime_call :=
  FatalError (jni_error_env self) (c_str (message self)).

(** A function type with a function type as its return type or written as
    the type of a parameter. *)
Definition has_function_part (t : ctype) : bool :=
  match t with
  | c_function Return Args => is_function Return || existsb is_function Args
  | _ => false
  end.

Definition j_is_function (t : jtype) : bool :=
  match t with
  | function _ _ => true
  | _ => false
  end.

(** The types function types really have: no function type in [t] has a
    function type as its return type or as the type of a parameter. *)
Fixpoint adjusted (t : jtype) : bool :=
  match t with
  | pointer_to t' => adjusted t'
  | function Return Args =>
      negb (j_is_function Return) && adjusted Return
      && forallb (fun a => negb (j_is_function a) && adjusted a) Args
  | _ => true
  end.

(** Nested pointers: [n] stars on [t]. *)
Definition pointers (n : nat) (t : jtype) : jtype := Nat.iter n pointer_to t.
End jnipp.

(** * Properties *)

(** ** The compile-time character packs *)
Section packs.
Import jnipp.

Lemma _pack_join_all_concat (Left Right : pack) (Rest : list pack) :
  detail._pack_join_all Left Right Rest = concat (Left :: Right :: Rest).
Proof.
  revert Left Right.
  induction Rest as [|Next Rest IH]; intros Left Right; simpl.
  - unfold detail._pack_join. by rewrite app_nil_r.
  - rewrite IH. unfold detail._pack_join. simpl. by rewrite <- app_assoc.
Qed.

Lemma pack_join_all_concat (Ts : list pack) :
  2 <= length Ts -> pack_join_all Ts = Some (concat Ts).
Proof.
  destruct Ts as [|Left [|Right Rest]]; simpl; try lia.
  intros _. f_equal. apply _pack_join_all_concat.
Qed.

Lemma joined_concat (b : bracketing) : joined b = concat (leaves b).
Proof.
  induction b as [p|l IHl r IHr]; simpl.
  - by rewrite app_nil_r.
  - unfold pack_join, detail._pack_join.
    by rewrite IHl, IHr, concat_app.
Qed.

Lemma leaves_nonempty (b : bracketing) : 1 <= length (leaves b).
Proof.
  induction b; simpl; [lia|]. rewrite length_app. lia.
Qed.

(** The array [str] read back as a C string is the pack itself when the
    pack has no NUL in it. *)
Lemma c_string_str (p : pack) :
  Ascii.zero ∉ p -> c_string (str p) = string_of_list_ascii p.
Proof.
  unfold str. induction p as [|ch p IH]; intros Hz; simpl; [done|].
  destruct (Ascii.eqb ch Ascii.zero) eqn:Hch.
  - apply Ascii.eqb_eq in Hch. subst ch. exfalso. apply Hz. left.
  - f_equal. apply IH. intros Hin. apply Hz. by right.
Qed.
End packs.

Lemma c_string_str_witness :
  jnipp.c_string (jnipp.str ["("; "I"; ")"; "Z"]%char) = "(I)Z"%string.
Proof.
  apply (c_string_str ["("; "I"; ")"; "Z"]%char).
  intros Hin. repeat (apply elem_of_cons in Hin as [Hin|Hin]; [discriminate|]).
  by apply elem_of_nil in Hin.
Defined.

(** C10. [pack_join] is associative, and joining the packs of any bracketing
    with [pack_join_all] gives the sequence the bracketing itself evaluates
    to; so two bracketings of the same packs evaluate to the same sequence. *)
Theorem pack_join_bracketing_irrelevant :
  (forall A B C : jnipp.pack,
      jnipp.pack_join (jnipp.pack_join A B) C
      = jnipp.pack_join A (jnipp.pack_join B C)) /\
  (forall l r : jnipp.bracketing,
      jnipp.pack_join_all (jnipp.leaves (jnipp.join l r))
      = Some (jnipp.joined (jnipp.join l r))) /\
  (forall b1 b2 : jnipp.bracketing,
      jnipp.leaves b1 = jnipp.leaves b2 -> jnipp.joined b1 = jnipp.joined b2).
Proof.
  split; [|split].
  - intros A B C. unfold jnipp.pack_join, jnipp.detail._pack_join.
    by rewrite app_assoc.
  - intros l r. rewrite pack_join_all_concat.
    + by rewrite joined_concat.
    + simpl. rewrite length_app.
      pose proof (leaves_nonempty l). pose proof (leaves_nonempty r). lia.
  - intros b1 b2 Hl. by rewrite !joined_concat, Hl.
Qed.

Lemma pack_join_bracketing_irrelevant_witness :
  jnipp.joined
    (jnipp.join (jnipp.join (jnipp.leaf ["("%char]) (jnipp.leaf ["I"%char]))
                (jnipp.leaf [")"%char]))
  = jnipp.joined
      (jnipp.join (jnipp.leaf ["("%char])
                  (jnipp.join (jnipp.leaf ["I"%char]) (jnipp.leaf [")"%char]))).
Proof.
  apply (proj2 (proj2 pack_join_bracketing_irrelevant)). reflexivity.
Defined.

(** ** The descriptor synthesizer *)

(** X1. For boolean, byte, char, short, int, float and double the mangler
    gives the one-letter pack of the reserved letter. *)
Lemma mangler_primitives_but_long :
  Forall (fun t => jnipp.mangler t = (fun ch => [ch]) <$> jnipp.reserved_letter t)
    [jnipp.jboolean; jnipp.jbyte; jnipp.jchar; jnipp.jshort; jnipp.jint;
     jnipp.jfloat; jnipp.jdouble] /\
  Forall (fun t => t = jnipp.jlong \/
                   jnipp.mangler t = (fun ch => [ch]) <$> jnipp.reserved_letter t)
    jnipp.primitives.
Proof.
  split.
  - repeat constructor.
  - unfold jnipp.primitives. repeat (constructor; [by (right + left)|]).
    constructor.
Qed.

(** One pointer level: '[' followed by the descriptor of the pointee. *)
Lemma mangler_pointer_descriptor (t : jnipp.jtype) :
  jnipp.mangler (jnipp.pointer_to t)
  = (n ← jnipp.mangler t; Some (["["%char] ++ n)).
Proof. reflexivity. Qed.

(** C1, at [jlong]: the mangler gives the pack ['L'], whose [str] reads "L",
    where the letter reserved for [long] is 'J'. *)
Theorem mangler_jlong_is_L :
  jnipp.mangle jnipp.jlong = Some ["L"%char] /\
  (jnipp.c_string ∘ jnipp.str) <$> jnipp.mangle jnipp.jlong = Some "L"%string /\
  jnipp.reserved_letter jnipp.jlong = Some "J"%char /\
  jnipp.mangle jnipp.jlong <> (fun ch => [ch]) <$> jnipp.reserved_letter jnipp.jlong.
Proof. repeat split; try reflexivity. discriminate. Qed.

(** C4, at [void()] and every other signature returning [void]: [mangler]
    has no case for [void], so such a signature has no descriptor, although
    [resolver] and [method] do cover [void]. *)
Theorem mangler_void_signature_missing :
  jnipp.mangle (jnipp.function jnipp.jvoid []) = None /\
  (forall Args : list jnipp.jtype,
      jnipp.mangle (jnipp.function jnipp.jvoid Args) = None) /\
  jnipp.mangler jnipp.jvoid = None /\
  jnipp.resolver_type jnipp.c_void = Some jnipp.jvoid /\
  jnipp.method_defined jnipp.jvoid = true /\
  jnipp.type (jnipp.c_function jnipp.c_void []) ≫= jnipp.mangle = None.
Proof.
  split_and!; try reflexivity.
  intros Args. unfold jnipp.mangle.
  change (jnipp.mangler (jnipp.function jnipp.jvoid Args))
    with (args_n ← mapM jnipp.mangler Args;
          ret_n ← jnipp.mangler jnipp.jvoid;
          jnipp.pack_join_all ([["("%char]] ++ args_n ++ [[")"%char]; ret_n])).
  by destruct (mapM _ Args).
Qed.

Lemma mangler_function_example :
  (jnipp.c_string ∘ jnipp.str) <$>
    jnipp.mangle (jnipp.function jnipp.jshort [jnipp.jint; jnipp.jboolean])
  = Some "(IZ)S"%string.
Proof. reflexivity. Qed.

(** C9. The descriptor of [defined<L>] is 'L', then [L::name], then ';';
    for [jstring] the array [str] reads "Ljava/lang/String;". *)
Theorem mangler_defined_descriptor :
  (forall L : jnipp.name_tag,
      jnipp.mangler (jnipp.defined L)
      = Some (["L"%char] ++ jnipp.name L ++ [";"%char])) /\
  (jnipp.c_string ∘ jnipp.str) <$> jnipp.mangle jnipp.jstring
  = Some "Ljava/lang/String;"%string.
Proof.
  split; [|reflexivity].
  intros L. reflexivity.
Qed.

(** ** The type resolver *)

(** X2. [resolver] maps void, bool, char, unsigned char, int16_t, int32_t
    and int64_t to void, jboolean, jbyte, jchar, jshort, jint and jlong. *)
Lemma resolver_scalars :
  jnipp.resolver_type jnipp.c_void = Some jnipp.jvoid /\
  jnipp.resolver_type jnipp.c_bool = Some jnipp.jboolean /\
  jnipp.resolver_type jnipp.c_char = Some jnipp.jbyte /\
  jnipp.resolver_type jnipp.c_unsigned_char = Some jnipp.jchar /\
  jnipp.resolver_type jnipp.c_int16_t = Some jnipp.jshort /\
  jnipp.resolver_type jnipp.c_int32_t = Some jnipp.jint /\
  jnipp.resolver_type jnipp.c_int64_t = Some jnipp.jlong.
Proof. repeat split. Qed.

(** C2, at [float] and [double]: [resolver] has no specialisation for them,
    so neither they nor a signature mentioning them resolve, although
    [mangler] and [method] cover [jfloat] and [jdouble]. *)
Theorem resolver_float_double_missing :
  jnipp.resolver_type jnipp.c_float = None /\
  jnipp.resolver_type jnipp.c_double = None /\
  jnipp.resolver_type (jnipp.c_function jnipp.c_double [jnipp.c_float]) = None /\
  is_Some (jnipp.mangler jnipp.jfloat) /\
  is_Some (jnipp.mangler jnipp.jdouble) /\
  jnipp.method_defined jnipp.jfloat = true /\
  jnipp.method_defined jnipp.jdouble = true.
Proof. repeat split; try reflexivity; by eexists. Qed.

(** ** The manual-lifetime cell *)
Section storage_facts.
Import ornew.
Context {T : Type}.
Implicit Types (c : storage T) (tr : trace T) (b : slot T).

Lemma destruct_unoccupied c tr : flag c = false -> destruct c tr = (c, tr).
Proof. intros H. unfold destruct. by rewrite H. Qed.

Lemma destruct_occupied c tr :
  flag c = true ->
  destruct c tr
  = ({| buf := indeterminate; flag := false |}, tr ++ [Destroy (buf c)]).
Proof. intros H. unfold destruct. by rewrite H. Qed.

Lemma destruct_flag c tr : flag (destruct c tr).1 = false.
Proof. unfold destruct. by destruct (flag c) eqn:H. Qed.

Lemma construct_unfold (v : T) c tr :
  construct v c tr
  = ({| buf := object (length (destruct c tr).2) v; flag := true |},
     (destruct c tr).2 ++ [Construct (length (destruct c tr).2) v]).
Proof.
  unfold construct, bind, fresh_id, emit, ret.
  by destruct (destruct c tr).
Qed.

Lemma assign_unfold (a : option T) c tr :
  assign a c tr
  = ({| buf := written a; flag := flag (destruct c tr).1 |},
     (destruct c tr).2 ++ [Assign (buf (destruct c tr).1) a]).
Proof.
  unfold assign, bind, emit, ret.
  by destruct (destruct c tr).
Qed.

Lemma destroyed_snoc tr (ev : event T) :
  destroyed (tr ++ [ev]) = destroyed tr ++ destroyed_of ev.
Proof.
  unfold destroyed. rewrite map_app, concat_app. simpl.
  by rewrite app_nil_r.
Qed.

Lemma destruct_tracked c tr :
  tracked c tr -> tracked (destruct c tr).1 (destruct c tr).2.
Proof.
  intros (Hnd & Hlt & Hbuf). unfold tracked. destruct (flag c) eqn:Hf.
  - rewrite destruct_occupied by done. simpl.
    rewrite destroyed_snoc, length_app. simpl.
    assert (Hgrow : forall i, i ∈ destroyed tr -> i < length tr + 1).
    { intros i Hi. specialize (Hlt i Hi). lia. }
    destruct (buf c) as [|v|i v] eqn:Hb; simpl; rewrite ?app_nil_r.
    + split_and!; done.
    + split_and!; done.
    + destruct (Hbuf i v eq_refl) as [Hi Hni].
      split_and!; [| |done].
      * apply list.NoDup_app. split_and!; [done| |apply list.NoDup_singleton].
        intros j Hj ->%list_elem_of_singleton. done.
      * intros j [Hj| ->%list_elem_of_singleton]%elem_of_app; [|lia].
        by apply Hgrow.
  - rewrite destruct_unoccupied by done. done.
Qed.

Lemma step_tracked (o : call T) c tr :
  tracked c tr -> tracked (step o c tr).1 (step o c tr).2.
Proof.
  intros H. apply destruct_tracked in H.
  destruct o as [v| |a]; simpl; [|done|].
  - rewrite construct_unfold. unfold tracked in *. simpl.
    destruct H as (Hnd & Hlt & _).
    rewrite destroyed_snoc, length_app. simpl. rewrite app_nil_r.
    split_and!; [done| |].
    + intros i Hi. specialize (Hlt i Hi). lia.
    + intros i w [= <- _]. split; [lia|].
      intros Hin. specialize (Hlt _ Hin). lia.
  - rewrite assign_unfold. unfold tracked in *. simpl.
    destruct H as (Hnd & Hlt & Hbuf).
    rewrite destroyed_snoc, length_app. simpl. rewrite app_nil_r.
    split_and!; [done| |].
    + intros i Hi. specialize (Hlt i Hi). lia.
    + intros i w Hw. destruct a; discriminate.
Qed.

Lemma run_tracked (os : list (call T)) c tr :
  tracked c tr -> tracked (run os c tr).1 (run os c tr).2.
Proof.
  revert c tr. induction os as [|o os IH]; intros c tr H; simpl; [done|].
  unfold bind. pose proof (step_tracked o c tr H) as Hs.
  destruct (step o c tr) as [c' tr']. by apply IH.
Qed.

Lemma destruct_vouched c tr :
  vouched c -> Forall (fun ev => stray ev = false) tr ->
  vouched (destruct c tr).1 /\
  Forall (fun ev => stray ev = false) (destruct c tr).2.
Proof.
  intros Hv Htr. destruct (flag c) eqn:Hf.
  - rewrite destruct_occupied by done. simpl. split; [by intros ?|].
    apply Forall_app. split; [done|]. apply Forall_singleton.
    destruct (Hv Hf) as (i & v & ->). done.
  - rewrite destruct_unoccupied by done. done.
Qed.

Lemma step_vouched (o : call T) c tr :
  vouched c -> Forall (fun ev => stray ev = false) tr ->
  vouched (step o c tr).1 /\
  Forall (fun ev => stray ev = false) (step o c tr).2.
Proof.
  intros Hv Htr. destruct (destruct_vouched c tr Hv Htr) as [Hv' Htr'].
  destruct o as [v| |a]; simpl; [|done|].
  - rewrite construct_unfold. simpl. split; [intros _; eauto|].
    apply Forall_app. split; [done|]. by apply Forall_singleton.
  - rewrite assign_unfold. simpl. split.
    + intros Hf. by rewrite destruct_flag in Hf.
    + apply Forall_app. split; [done|]. by apply Forall_singleton.
Qed.

Lemma run_vouched (os : list (call T)) c tr :
  vouched c -> Forall (fun ev => stray ev = false) tr ->
  vouched (run os c tr).1 /\
  Forall (fun ev => stray ev = false) (run os c tr).2.
Proof.
  revert c tr. induction os as [|o os IH]; intros c tr Hv Htr; simpl; [done|].
  unfold bind. pose proof (step_vouched o c tr Hv Htr) as [Hv' Htr'].
  destruct (step o c tr) as [c' tr']. by apply IH.
Qed.
End storage_facts.

Lemma lifetime_example :
  (ornew.lifetime false
     [ornew.call_construct 1; ornew.call_assign (Some 2);
      ornew.call_construct 3] []).2
  = [ornew.Construct 0 1; ornew.Destroy (ornew.object 0 1);
     ornew.Assign ornew.indeterminate (Some 2);
     ornew.Construct 3 3; ornew.Destroy (ornew.object 3 3)].
Proof. reflexivity. Qed.

(** C7. [destruct()] on an unoccupied cell changes nothing and calls
    nothing; on an occupied cell it calls the destructor once, on what the
    buffer holds, and clears the flag.  After [construct(v)], a [destruct()]
    followed by the cell's destructor destroys the new instance once, and so
    does the cell's destructor alone.  Over the whole life of a cell, however
    it was constructed and whatever calls were made on it, no constructed
    instance is destroyed twice; for a cell made by [storage(nullptr)] the
    destructor is never run on a buffer without an instance either. *)
Theorem destruct_at_most_once :
  (forall (T : Type) (b : ornew.slot T) (tr : ornew.trace T),
      ornew.destruct {| ornew.buf := b; ornew.flag := false |} tr
      = ({| ornew.buf := b; ornew.flag := false |}, tr)) /\
  (forall (T : Type) (b : ornew.slot T) (tr : ornew.trace T),
      ornew.destruct {| ornew.buf := b; ornew.flag := true |} tr
      = ({| ornew.buf := ornew.indeterminate; ornew.flag := false |},
         tr ++ [ornew.Destroy b])) /\
  (forall (T : Type) (v : T) (c : ornew.storage T) (tr : ornew.trace T),
      let before := (ornew.destruct c tr).2 in
      let i := length before in
      let after :=
        ({| ornew.buf := ornew.indeterminate; ornew.flag := false |},
         before ++ [ornew.Construct i v; ornew.Destroy (ornew.object i v)]) in
      (let! c1 := ornew.construct v c in
       let! c2 := ornew.destruct c1 in
       ornew.teardown c2)%state tr = after /\
      (let! c1 := ornew.construct v c in ornew.teardown c1)%state tr = after) /\
  (forall (T : Type) (f0 : bool) (os : list (ornew.call T)),
      NoDup (ornew.destroyed (ornew.lifetime f0 os []).2)) /\
  (forall (T : Type) (os : list (ornew.call T)),
      Forall (fun ev => ornew.stray ev = false) (ornew.lifetime false os []).2).
Proof.
  split_and!.
  - intros T b tr. by apply destruct_unoccupied.
  - intros T b tr. by rewrite destruct_occupied.
  - intros T v c tr. simpl. unfold bind, ornew.teardown.
    rewrite construct_unfold.
    rewrite destruct_occupied by done. simpl.
    rewrite destruct_unoccupied by done.
    by rewrite <- app_assoc.
  - intros T f0 os. unfold ornew.lifetime, bind, ornew.teardown.
    assert (H0 : ornew.tracked (ornew.uninitialized (T:=T) f0) []).
    { split_and!; [constructor| |done]. intros i Hi. by apply elem_of_nil in Hi. }
    pose proof (run_tracked os _ _ H0) as H.
    destruct (ornew.run os (ornew.uninitialized f0) []) as [c tr].
    apply destruct_tracked in H. simpl in H.
    destruct (ornew.destruct c tr). apply H.
  - intros T os. unfold ornew.lifetime, bind, ornew.teardown.
    assert (Hv : ornew.vouched (ornew.uninitialized (T:=T) false)) by (by intros ?).
    pose proof (run_vouched os _ [] Hv (Forall_nil _)) as [Hv' Htr].
    destruct (ornew.run os (ornew.uninitialized false) []) as [c tr].
    pose proof (destruct_vouched c tr Hv' Htr) as [_ H].
    by destruct (ornew.destruct c tr).
Qed.

(** C8.  [assign] and [operator=(type const&)] first call
    [destruct()], which destroys what an occupied cell holds, then
    copy-assign into the buffer, and leave the flag false; so the
    [destruct()] that follows, the one of the cell's destructor included,
    calls no destructor and the value written stays in the buffer.  Among
    the member functions written in the class, [construct], [destruct] and
    [assign], only [construct] leaves the flag true, and among the
    constructors only [storage(constructor_tag, ...)], which calls it.  The
    implicit copy assignment [operator=(storage const&)] copies the flag
    and the buffer of its source and calls nothing on [T]. *)
Theorem assign_never_occupies :
  (forall (T : Type) (a : option T) (b : ornew.slot T) (tr : ornew.trace T),
      ornew.assign a {| ornew.buf := b; ornew.flag := true |} tr
      = ({| ornew.buf := ornew.written a; ornew.flag := false |},
         tr ++ [ornew.Destroy b; ornew.Assign ornew.indeterminate a]) /\
      ornew.assign a {| ornew.buf := b; ornew.flag := false |} tr
      = ({| ornew.buf := ornew.written a; ornew.flag := false |},
         tr ++ [ornew.Assign b a])) /\
  (forall (T : Type) (a c : ornew.storage T) (tr : ornew.trace T),
      ornew.flag (ornew.copy_assign a c tr).1 = ornew.flag a /\
      ornew.buf (ornew.copy_assign a c tr).1 = ornew.buf a /\
      (ornew.copy_assign a c tr).2 = tr) /\
  (forall (T : Type) (a : option T) (c : ornew.storage T) (tr : ornew.trace T),
      ornew.flag (ornew.assign a c tr).1 = false /\
      ornew.op_assign a c tr = ornew.assign a c tr /\
      ornew.raw (ornew.assign a c tr).1 = a /\
      (let! c1 := ornew.assign a c in ornew.destruct c1)%state tr
      = ornew.assign a c tr /\
      (let! c1 := ornew.assign a c in ornew.teardown c1)%state tr
      = ornew.assign a c tr) /\
  (forall (T : Type) (o : ornew.call T) (c : ornew.storage T)
          (tr : ornew.trace T),
      ornew.flag (ornew.step o c tr).1 = true
      <-> exists v, o = ornew.call_construct v) /\
  (forall (T : Type) (f0 : bool) (a : ornew.storage T) (v : T)
          (tr : ornew.trace T),
      ornew.flag (ornew.storage_nullptr (T:=T)) = false /\
      ornew.flag (ornew.storage_copy f0 a tr).1 = false /\
      ornew.flag (ornew.storage_value f0 v tr).1 = false /\
      ornew.flag (ornew.storage_construct f0 v tr).1 = true).
Proof.
  assert (Hflag : forall (T : Type) (a : option T) c tr,
             ornew.flag (ornew.assign a c tr).1 = false).
  { intros T a c tr. rewrite assign_unfold. simpl. apply destruct_flag. }
  split_and!.
  - intros T a b tr. split.
    + rewrite assign_unfold, destruct_occupied by done. simpl.
      by rewrite <- app_assoc.
    + by rewrite assign_unfold, destruct_unoccupied.
  - done.
  - intros T a c tr. split_and!.
    + apply Hflag.
    + done.
    + rewrite assign_unfold. unfold ornew.raw. simpl. by destruct a.
    + unfold bind. pose proof (Hflag T a c tr) as H.
      destruct (ornew.assign a c tr) as [c1 tr1]. by apply destruct_unoccupied.
    + unfold bind, ornew.teardown. pose proof (Hflag T a c tr) as H.
      destruct (ornew.assign a c tr) as [c1 tr1]. by apply destruct_unoccupied.
  - intros T o c tr. destruct o as [v| |a]; simpl.
    + rewrite construct_unfold. simpl. split; [eauto|done].
    + rewrite destruct_flag. split; [done|]. by intros [v Hv].
    + rewrite Hflag. split; [done|]. by intros [v Hv].
  - intros T f0 a v tr. split_and!.
    + done.
    + apply Hflag.
    + apply Hflag.
    + unfold ornew.storage_construct. by rewrite construct_unfold.
Qed.

(** C8, at [b = a] with an occupied [a]: the implicit copy assignment
    leaves the flag of [b] true, and no [construct] was called on [b]. *)
Lemma copy_assign_occupies_without_construct :
  let a := {| ornew.buf := ornew.object 0 5; ornew.flag := true |} in
  let b := ornew.storage_nullptr in
  let tr := [ornew.Construct 0 5] in
  ornew.flag b = false /\
  ornew.flag (ornew.copy_assign a b tr).1 = true /\
  (ornew.copy_assign a b tr).2 = tr.
Proof. split_and!; reflexivity. Qed.

(** C3, at an occupied cell: the copy made by [storage(self const&)] has an
    equal value in its buffer, but it is not occupied: its flag is false,
    no constructor of [T] ran for it (the value was copy-assigned onto a
    buffer holding no [T]), and its destructor destroys nothing, exactly as
    for the copy of an empty cell. *)
Theorem storage_copy_not_occupied :
  forall (T : Type) (f0 : bool) (i : nat) (v : T) (tr : ornew.trace T),
    let a := {| ornew.buf := ornew.object i v; ornew.flag := true |} in
    let b := (ornew.storage_copy f0 a tr).1 in
    let tr' := (ornew.storage_copy f0 a tr).2 in
    ornew.holds a v /\
    ornew.raw b = Some v /\
    ornew.flag b = false /\
    ~ ornew.holds b v /\
    ornew.constructed tr' = ornew.constructed tr /\
    (exists before,
        tr' = before ++ [ornew.Assign ornew.indeterminate (Some v)]) /\
    ornew.teardown b tr' = (b, tr').
Proof.
  intros T f0 i v tr a b tr'. subst a b tr'.
  unfold ornew.storage_copy. rewrite assign_unfold. simpl.
  assert (Hfl : ornew.flag (ornew.destruct (ornew.uninitialized (T:=T) f0) tr).1
                = false) by apply destruct_flag.
  split_and!; try done.
  - rewrite Hfl. by intros [? _].
  - unfold ornew.constructed. destruct f0; simpl.
    + rewrite !map_app, !concat_app. simpl. by rewrite !app_nil_r.
    + rewrite !map_app, !concat_app. simpl. by rewrite !app_nil_r.
  - eexists. f_equal. by destruct f0.
  - unfold ornew.teardown. by apply destruct_unoccupied.
Qed.

(** X7. Whatever the source cell, the copy made by [storage(self const&)]
    reads the same through [raw()] as the source and has its flag false;
    the source is not touched, and the only call made on [T] after the
    initial [destruct()] is the copy assignment. *)
Lemma storage_copy_buffer :
  forall (T : Type) (f0 : bool) (a : ornew.storage T) (tr : ornew.trace T),
    ornew.raw (ornew.storage_copy f0 a tr).1 = ornew.raw a /\
    ornew.flag (ornew.storage_copy f0 a tr).1 = false /\
    (ornew.storage_copy f0 a tr).2
    = (ornew.destruct (ornew.uninitialized f0) tr).2
      ++ [ornew.Assign ornew.indeterminate (ornew.raw a)].
Proof.
  intros T f0 a tr. unfold ornew.storage_copy. rewrite assign_unfold. simpl.
  split_and!.
  - unfold ornew.raw at 1. simpl. by destruct (ornew.raw a).
  - apply destruct_flag.
  - by destruct f0.
Qed.

Lemma storage_copy_example :
  ornew.storage_copy false
    {| ornew.buf := ornew.object 0 5; ornew.flag := true |}
    [ornew.Construct 0 5]
  = ({| ornew.buf := ornew.assigned 5; ornew.flag := false |},
     [ornew.Construct 0 5; ornew.Assign ornew.indeterminate (Some 5)]).
Proof. reflexivity. Qed.

(** ** Results and their errors *)
Section expected_facts.
Import ornew.
Context {R E : Type}.
Implicit Types (w : world R E) (x : expected R) (u : unexpected)
  (L : gmap nat (obj R)) (o : obj R) (l : loc).

Lemma on_calls_heap {A} (m : State (trace R) A) w :
  heap (on_calls (E:=E) m w).2 = heap w.
Proof. unfold on_calls. by destruct (m (calls w)). Qed.

Lemma expected_unexpected_unfold (p : unique_ptr) w :
  expected_unexpected {| unexpected_e := p |} w
  = (({| e := p; r := storage_nullptr |}, {| unexpected_e := None |}), w).
Proof. by destruct w. Qed.

Lemma expected_move_unfold f0 x w :
  expected_move f0 x w
  = (({| e := e x; r := (storage_copy f0 (r x) (calls w)).1 |},
      {| e := None; r := r x |}),
     {| calls := (storage_copy f0 (r x) (calls w)).2; heap := heap w |}).
Proof.
  unfold expected_move, unique_ptr_move, bind, on_calls, ret.
  by destruct (storage_copy f0 (r x) (calls w)).
Qed.

Lemma expected_value_unfold f0 (a : R) w :
  expected_value f0 a w
  = ({| e := None; r := (storage_value f0 a (calls w)).1 |},
     {| calls := (storage_value f0 a (calls w)).2; heap := heap w |}).
Proof.
  unfold expected_value, bind, on_calls, ret.
  by destruct (storage_value f0 a (calls w)).
Qed.

Lemma expected_dtor_heap x w :
  heap (expected_dtor x w).2
  = match e x with Some l => delete l (heap w) | None => heap w end.
Proof.
  unfold expected_dtor, bind, on_calls, on_heap, unique_ptr_dtor, delete_error.
  destruct (teardown (r x) (calls w)). simpl. by destruct (e x).
Qed.

Lemma owns_insert L n o k l :
  owns (<[n := o]> L) k l
  <-> (k = n /\ pointer o = Some l) \/ (k <> n /\ owns L k l).
Proof.
  unfold owns. destruct (decide (k = n)) as [->|Hne].
  - rewrite lookup_insert_eq. split.
    + intros (o0 & [= <-] & Hp). by left.
    + intros [[? Hp]|[? ?]]; [|done]. by exists o.
  - rewrite lookup_insert_ne by done. split.
    + intros H. by right.
    + intros [[? ?]|[? H]]; done.
Qed.

Lemma owns_delete L n k l :
  owns (delete n L) k l <-> k <> n /\ owns L k l.
Proof.
  unfold owns. destruct (decide (k = n)) as [->|Hne].
  - rewrite lookup_delete_eq. split.
    + by intros (o0 & [=] & ?).
    + by intros [? ?].
  - rewrite lookup_delete_ne by done. split.
    + intros H. by split.
    + by intros [? H].
Qed.

Lemma owns_live L n l : owns L n l -> n ∈ dom L.
Proof. intros (o & Ho & _). apply elem_of_dom. eauto. Qed.

Lemma owns_fresh L l : ~ owns L (fresh (dom L)) l.
Proof. intros H%owns_live. by apply is_fresh in H. Qed.

(** Declaring an object that holds no error. *)
Lemma ownership_declare_null L w w' o :
  exclusive_ownership {| live := L; mem := w |} ->
  pointer o = None -> heap w' = heap w ->
  exclusive_ownership {| live := declare o L; mem := w' |}.
Proof.
  intros (HA & HB & HC) Ho Hh. unfold exclusive_ownership, declare in *.
  simpl in *. rewrite Hh. split_and!.
  - intros n l [[? ?]|[? H]]%owns_insert; [congruence|eauto].
  - intros n1 n2 l [[? ?]|[? H1]]%owns_insert; [congruence|].
    intros [[? ?]|[? H2]]%owns_insert; [congruence|eauto].
  - intros l Hl. destruct (HC l Hl) as [n Hn]. exists n.
    apply owns_insert. right. split; [|done].
    intros ->. by apply owns_fresh in Hn.
Qed.

(** Declaring an object that owns a newly allocated error. *)
Lemma ownership_declare_new L w o (err : E) :
  exclusive_ownership {| live := L; mem := w |} ->
  pointer o = Some (fresh (dom (heap w))) ->
  exclusive_ownership
    {| live := declare o L;
       mem := {| calls := calls w;
                 heap := <[fresh (dom (heap w)) := err]> (heap w) |} |}.
Proof.
  intros (HA & HB & HC) Ho. unfold exclusive_ownership, declare in *.
  simpl in *.
  assert (Hnew : forall n, ~ owns L n (fresh (dom (heap w)))).
  { intros n Hn%HA%elem_of_dom. by apply is_fresh in Hn. }
  split_and!.
  - intros n l [[? Hl]|[? H]]%owns_insert.
    + assert (l = fresh (dom (heap w))) as -> by congruence.
      rewrite lookup_insert_eq. eauto.
    + destruct (decide (l = fresh (dom (heap w)))) as [->|Hne].
      * by apply Hnew in H.
      * rewrite lookup_insert_ne by done. eauto.
  - intros n1 n2 l [[-> Hl1]|[? H1]]%owns_insert
                   [[-> Hl2]|[? H2]]%owns_insert; [done| | |eauto].
    + assert (l = fresh (dom (heap w))) as -> by congruence.
      by apply Hnew in H2.
    + assert (l = fresh (dom (heap w))) as -> by congruence.
      by apply Hnew in H1.
  - intros l Hl. destruct (decide (l = fresh (dom (heap w)))) as [->|Hne].
    + exists (fresh (dom L)). apply owns_insert. by left.
    + rewrite lookup_insert_ne in Hl by done.
      destruct (HC l Hl) as [n Hn]. exists n.
      apply owns_insert. right. split; [|done].
      intros ->. by apply owns_fresh in Hn.
Qed.

(** Declaring [o'] from the live object [n], which hands its pointer over
    and is left as [rest]. *)
Lemma ownership_transfer L w w' n o rest o' :
  exclusive_ownership {| live := L; mem := w |} ->
  L !! n = Some o -> pointer rest = None -> pointer o' = pointer o ->
  heap w' = heap w ->
  exclusive_ownership
    {| live := declare o' (<[n := rest]> L); mem := w' |}.
Proof.
  intros (HA & HB & HC) Hn Hrest Ho' Hh.
  unfold exclusive_ownership, declare in *. simpl in *. rewrite Hh.
  set (m := fresh (dom (<[n := rest]> L))).
  assert (Hm : m <> n).
  { intros Heq. pose proof (is_fresh (dom (<[n := rest]> L))) as Hf.
    fold m in Hf. rewrite Heq in Hf. apply Hf, elem_of_dom.
    rewrite lookup_insert_eq. eauto. }
  assert (Hmfresh : forall l, ~ owns L m l).
  { intros l Hl%owns_live. pose proof (is_fresh (dom (<[n := rest]> L))) as Hf.
    fold m in Hf. apply Hf. rewrite dom_insert_L. set_solver. }
  assert (Hold : forall k l,
    owns (<[m := o']> (<[n := rest]> L)) k l ->
    (k = m /\ owns L n l) \/ (k <> m /\ k <> n /\ owns L k l)).
  { intros k l [[-> Hp]|[Hk H]]%owns_insert.
    - left. split; [done|]. exists o. split; [done|congruence].
    - apply owns_insert in H as [[? ?]|[Hkn H]]; [congruence|]. by right. }
  split_and!.
  - intros k l [[? H]|(? & ? & H)]%Hold; eauto.
  - intros k1 k2 l [[-> H1]|(? & ? & H1)]%Hold [[-> H2]|(? & ? & H2)]%Hold.
    + done.
    + by pose proof (HB _ _ _ H1 H2).
    + by pose proof (HB _ _ _ H1 H2).
    + eauto.
  - intros l Hl. destruct (HC l Hl) as [k Hk].
    destruct (decide (k = n)) as [->|Hkn].
    + exists m. apply owns_insert. left. split; [done|].
      destruct Hk as (o0 & Ho0 & Hp). congruence.
    + exists k. apply owns_insert. right. split.
      * intros ->. by apply Hmfresh in Hk.
      * apply owns_insert. by right.
Qed.

(** The end of the live object [n]: its error, if it has one, is
    deleted. *)
Lemma ownership_end L w w' n o :
  exclusive_ownership {| live := L; mem := w |} ->
  L !! n = Some o ->
  heap w'
  = match pointer o with Some l => delete l (heap w) | None => heap w end ->
  exclusive_ownership {| live := delete n L; mem := w' |}.
Proof.
  intros (HA & HB & HC) Hn Hh.
  unfold exclusive_ownership in *. simpl in *. rewrite Hh.
  assert (Hmine : forall k l, owns L k l -> pointer o = Some l -> k = n).
  { intros k l Hk Hp. apply (HB k n l Hk). by exists o. }
  split_and!.
  - intros k l [Hk H]%owns_delete.
    destruct (pointer o) as [l0|] eqn:Hp; [|eauto].
    destruct (decide (l = l0)) as [->|Hne].
    + by pose proof (Hmine _ _ H eq_refl).
    + rewrite lookup_delete_ne by done. eauto.
  - intros k1 k2 l [? H1]%owns_delete [? H2]%owns_delete. eauto.
  - intros l Hl.
    assert (Hl' : is_Some (heap w !! l) /\ pointer o <> Some l).
    { destruct (pointer o) as [l0|]; [|done].
      destruct (decide (l0 = l)) as [->|Hne].
      - rewrite lookup_delete_eq in Hl. by destruct Hl.
      - rewrite lookup_delete_ne in Hl by done. split; [done|congruence]. }
    destruct Hl' as [Hin Hno]. destruct (HC l Hin) as [k Hk].
    exists k. apply owns_delete. split; [|done].
    intros ->. destruct Hk as (o0 & Ho0 & Hp). congruence.
Qed.

Lemma exec_ownership (s : stmt R E) (p : program_state R E) :
  exclusive_ownership p -> exclusive_ownership (exec s p).
Proof.
  destruct p as [L w]. intros H.
  destruct s as [err| |f0 a|n|f0 n|n]; unfold exec; cbn [live mem].
  - destruct w as [tr h]. simpl.
    exact (ownership_declare_new L {| calls := tr; heap := h |}
             (a_builder {| unexpected_e := Some (fresh (dom h)) |})
             err H eq_refl).
  - by apply (ownership_declare_null L w).
  - rewrite expected_value_unfold. by apply (ownership_declare_null L w).
  - destruct (L !! n) as [[u|x]|] eqn:Hn; try done.
    destruct u as [ptr]. rewrite expected_unexpected_unfold.
    by eapply ownership_transfer.
  - destruct (L !! n) as [[u|x]|] eqn:Hn; try done.
    rewrite expected_move_unfold. by eapply ownership_transfer.
  - destruct (L !! n) as [[u|x]|] eqn:Hn; try done.
    + destruct w as [tr h]. simpl. by eapply ownership_end.
    + pose proof (expected_dtor_heap x w) as Hh.
      destruct (expected_dtor x w) as [[] w']. simpl in Hh.
      by eapply ownership_end.
Qed.

Lemma exec_all_ownership (ss : list (stmt R E)) (p : program_state R E) :
  exclusive_ownership p -> exclusive_ownership (exec_all ss p).
Proof.
  revert p. induction ss as [|s ss IH]; intros p H; simpl; [done|].
  by apply IH, exec_ownership.
Qed.

Lemma start_ownership : exclusive_ownership (start (R:=R) (E:=E)).
Proof.
  unfold exclusive_ownership, start, owns. simpl. split_and!.
  - intros n l (o & Ho & _). by rewrite lookup_empty in Ho.
  - intros n1 n2 l (o & Ho & _). by rewrite lookup_empty in Ho.
  - intros l [err Hl]. by rewrite lookup_empty in Hl.
Qed.
End expected_facts.

(** C5.  Building a result from a builder: the builder's
    constructor puts one new error on the heap, the conversion hands that
    pointer to the result and leaves the builder null, and the result is in
    the failure state, owning the error, with an unoccupied cell; the same
    holds for any builder that holds an error.  A builder that holds none
    any more, after [move_error()] or an earlier conversion, converts to
    the default state.  Moving a failure
    gives the destination the pointer and an unoccupied cell and leaves the
    source in the default state; the heap is untouched.  In every program
    over builders and results each error on the heap has exactly one owner
    and no pointer dangles, so destroying the owner frees the error. *)
Theorem failure_owns_one_error :
  (forall (R E : Type) (err : E) (w : ornew.world R E),
      let l := fresh (dom (ornew.heap w)) in
      let w' := {| ornew.calls := ornew.calls w;
                   ornew.heap := <[l := err]> (ornew.heap w) |} in
      let x := {| ornew.e := Some l; ornew.r := ornew.storage_nullptr |} in
      ornew.heap w !! l = None /\
      (let! u := ornew.on_heap (ornew.raise err) in
       ornew.expected_unexpected u)%state w
      = ((x, {| ornew.unexpected_e := None |}), w') /\
      ornew.is_failure w' x l /\
      ~ ornew.is_success x /\ ~ ornew.is_default x) /\
  (forall (R E : Type) (l : ornew.loc) (w : ornew.world R E),
      ornew.expected_unexpected {| ornew.unexpected_e := Some l |} w
      = (({| ornew.e := Some l; ornew.r := ornew.storage_nullptr |},
          {| ornew.unexpected_e := None |}), w)) /\
  (forall (R E : Type) (p : ornew.unique_ptr) (err : E) (w : ornew.world R E),
      ornew.expected_unexpected
        (ornew.move_error {| ornew.unexpected_e := p |}).2 w
      = ((ornew.expected_default, {| ornew.unexpected_e := None |}), w) /\
      ornew.is_default (ornew.expected_default (R:=R)) /\
      ((let! u := ornew.on_heap (ornew.raise err) in
        let! first := ornew.expected_unexpected u in
        ornew.expected_unexpected first.2)%state w).1
      = (ornew.expected_default, {| ornew.unexpected_e := None |})) /\
  (forall (R E : Type) (f0 : bool) (l : ornew.loc) (b : ornew.slot R)
          (w : ornew.world R E),
      let x := {| ornew.e := Some l;
                  ornew.r := {| ornew.buf := b; ornew.flag := false |} |} in
      let dst := (ornew.expected_move f0 x w).1.1 in
      let src := (ornew.expected_move f0 x w).1.2 in
      let w' := (ornew.expected_move f0 x w).2 in
      ornew.e dst = Some l /\
      ornew.flag (ornew.r dst) = false /\
      ornew.is_default src /\
      ornew.heap w' = ornew.heap w) /\
  (forall (R E : Type) (ss : list (ornew.stmt R E)),
      ornew.exclusive_ownership (ornew.exec_all ss ornew.start)).
Proof.
  split_and!.
  - intros R E err w l w' x.
    assert (Hfresh : ornew.heap w !! l = None).
    { apply not_elem_of_dom. apply is_fresh. }
    split_and!.
    + done.
    + by destruct w.
    + unfold ornew.is_failure. subst w' x. simpl.
      rewrite lookup_insert_eq. split_and!; eauto.
    + by intros [? ?].
    + by intros [? ?].
  - intros R E l w. apply expected_unexpected_unfold.
  - intros R E p err w. split_and!.
    + by destruct w.
    + done.
    + by destruct w.
  - intros R E f0 l b w x dst src w'. subst dst src w'.
    rewrite expected_move_unfold. simpl. split_and!; try done.
    unfold ornew.storage_copy. rewrite assign_unfold. simpl. apply destruct_flag.
  - intros R E ss. apply exec_all_ownership, start_ownership.
Qed.

(** C5, at a builder emptied by [move_error()]: it converts to a result in
    the default state, which owns no error. *)
Lemma emptied_builder_converts_to_default :
  let w := {| ornew.calls := @nil (ornew.event nat);
              ornew.heap := {[1%positive := "boom"%string]} |} in
  let u := {| ornew.unexpected_e := Some 1%positive |} in
  let emptied := (ornew.move_error u).2 in
  let x := (ornew.expected_unexpected emptied w).1.1 in
  ornew.is_default x /\
  ~ (exists l, ornew.is_failure (ornew.expected_unexpected emptied w).2 x l).
Proof.
  split; [done|]. intros (l & He & _). discriminate He.
Qed.

Lemma failure_program_example :
  let p := ornew.exec_all
             [ornew.s_raise "boom"%string; ornew.s_convert 0; ornew.s_move false 1]
             (ornew.start (R:=nat)) in
  ornew.pointer <$> ornew.live p !! 0 = Some None /\
  ornew.pointer <$> ornew.live p !! 1 = Some None /\
  ornew.pointer <$> ornew.live p !! 2 = Some (Some 1%positive) /\
  ornew.heap (ornew.mem p) !! 1%positive = Some "boom"%string /\
  ornew.heap (ornew.mem (ornew.exec (ornew.s_end 2) p)) = ∅.
Proof. vm_compute. split_and!; reflexivity. Qed.

(** ** The run-time wrappers *)
Section wrappers.
Import ornew jnipp.

Lemma not_found_contains (name where_ : string) :
  contains ("Not found: " +:+ name +:+ where_) name.
Proof. by exists "Not found: "%string, where_. Qed.

(** X5. [find_class] when the runtime knows no such class: a failure that
    owns a new error, made for this environment, whose message contains the
    name. *)
Lemma find_class_reports_missing (self : environment) (name : string)
    (f0 : bool) (w : world clas jni_error) :
  FindClass (env self) (c_str name) = None ->
  exists l err,
    find_class self name f0 w
    = ({| e := Some l; r := storage_nullptr |},
       {| calls := calls w; heap := <[l := err]> (heap w) |}) /\
    heap w !! l = None /\
    jni_error_env err = env self /\
    contains (message err) name.
Proof.
  intros Hnull. unfold find_class. rewrite Hnull.
  eexists (fresh (dom (heap w))), _. split_and!.
  - by destruct w.
  - apply not_elem_of_dom, is_fresh.
  - done.
  - apply not_found_contains.
Qed.

(** X6. [find_class] when the runtime returns a class: no error, the class
    wrapper bound to this environment in the buffer of the result's cell,
    the cell's flag false, and the heap of errors untouched. *)
Lemma find_class_wraps_found (self : environment) (name : string)
    (f0 : bool) (w : world clas jni_error) (found : jclass) :
  FindClass (env self) (c_str name) = Some found ->
  let x := (find_class self name f0 w).1 in
  e x = None /\
  raw (r x) = Some {| clas_env := self; c := found |} /\
  flag (r x) = false /\
  heap (find_class self name f0 w).2 = heap w.
Proof.
  intros Hfound. unfold find_class. rewrite Hfound.
  rewrite expected_value_unfold. simpl. split_and!; try done.
  - unfold storage_value. by rewrite assign_unfold.
  - unfold storage_value. rewrite assign_unfold. simpl. apply destruct_flag.
Qed.

End wrappers.

Lemma find_class_reports_missing_witness :
  let jni := {| jnipp.FindClass := fun _ => None;
                jnipp.GetMethodID := fun _ _ _ => None |} in
  let w := {| ornew.calls := []; ornew.heap := ∅ |} in
  exists l err,
    jnipp.find_class {| jnipp.env := jni |} "com/example/Missing" false w
    = ({| ornew.e := Some l; ornew.r := ornew.storage_nullptr |},
       {| ornew.calls := ornew.calls w;
          ornew.heap := <[l := err]> (ornew.heap w) |}) /\
    ornew.heap w !! l = None /\
    jnipp.jni_error_env err = jni /\
    jnipp.contains (jnipp.message err) "com/example/Missing".
Proof.
  intros jni w.
  apply (find_class_reports_missing {| jnipp.env := jni |}
           "com/example/Missing" false w).
  reflexivity.
Defined.

Lemma find_class_wraps_found_witness :
  let jni := {| jnipp.FindClass := fun _ => Some 7%positive;
                jnipp.GetMethodID := fun _ _ _ => None |} in
  let self := {| jnipp.env := jni |} in
  let w := {| ornew.calls := []; ornew.heap := ∅ |} in
  let x := (jnipp.find_class self "java/lang/Object" true w).1 in
  ornew.e x = None /\
  ornew.raw (ornew.r x)
  = Some {| jnipp.clas_env := self; jnipp.c := 7%positive |} /\
  ornew.flag (ornew.r x) = false /\
  ornew.heap (jnipp.find_class self "java/lang/Object" true w).2 = ornew.heap w.
Proof.
  intros jni self w.
  apply (find_class_wraps_found self "java/lang/Object" true w 7%positive).
  reflexivity.
Defined.

(** C6, at [get_method<void()>("notify")] and at every other signature:
    the call does not instantiate, whatever the lookup would return.  The
    default [type] is the resolved function type, which has no nested
    [return_type] (the member is declared in [resolver<Signature>], not in
    its [type]); for [void()] the descriptor is missing as well, since
    [mangler] has no case for [void]. *)
Theorem get_method_never_instantiates :
  (forall (Signature : jnipp.ctype) (self : jnipp.clas) (name : string)
          (f0 : bool),
      jnipp.get_method Signature self name f0 = None) /\
  jnipp.type (jnipp.c_function jnipp.c_void [])
  = Some (jnipp.function jnipp.jvoid []) /\
  jnipp.nested_return_type (jnipp.function jnipp.jvoid []) = None /\
  jnipp.resolver_return_type (jnipp.c_function jnipp.c_void [])
  = Some jnipp.c_void /\
  jnipp.mangle (jnipp.function jnipp.jvoid []) = None.
Proof.
  split_and!; try reflexivity.
  intros Signature self name f0. unfold jnipp.get_method.
  destruct (jnipp.type Signature) as [t|]; [|done]. simpl.
  by destruct t.
Qed.

(** ** More on the compile-time machinery *)

Lemma jtype_nested_ind (P : jnipp.jtype -> Prop) :
  P jnipp.jvoid -> P jnipp.jboolean -> P jnipp.jbyte -> P jnipp.jchar ->
  P jnipp.jshort -> P jnipp.jint -> P jnipp.jlong -> P jnipp.jfloat ->
  P jnipp.jdouble ->
  (forall L, P (jnipp.defined L)) ->
  (forall t, P t -> P (jnipp.pointer_to t)) ->
  (forall Return Args, P Return -> Forall P Args ->
                       P (jnipp.function Return Args)) ->
  forall t, P t.
Proof.
  intros Hv Hz Hb Hc Hs Hi Hl Hf Hd Hdef Hptr Hfn.
  fix IH 1. intros t. destruct t as [| | | | | | | | |L|t'|Return Args].
  1-9: assumption.
  - apply Hdef.
  - apply Hptr, IH.
  - apply Hfn; [apply IH|].
    induction Args as [|a Args IHA]; constructor; [apply IH|exact IHA].
Qed.

Lemma existsb_false_Forall {A} (f : A -> bool) (l : list A) :
  existsb f l = false <-> Forall (fun x => f x = false) l.
Proof.
  induction l as [|x l IH]; simpl.
  - split; [constructor|done].
  - rewrite orb_false_iff, IH. split.
    + intros [? ?]. by constructor.
    + intros H. inversion H; subst. by split.
Qed.

Lemma forallb_true_Forall {A} (f : A -> bool) (l : list A) :
  forallb f l = true <-> Forall (fun x => f x = true) l.
Proof.
  induction l as [|x l IH]; simpl.
  - split; [constructor|done].
  - rewrite andb_true_iff, IH. split.
    + intros [? ?]. by constructor.
    + intros H. inversion H; subst. by split.
Qed.

Lemma Forall_pointwise_iff {A} (P Q : A -> Prop) (l : list A) :
  Forall (fun x => P x <-> Q x) l -> (Forall P l <-> Forall Q l).
Proof.
  induction 1 as [|x l Hx _ IH]; [split; constructor|].
  split; intros H; inversion H; subst; constructor; tauto.
Qed.

Lemma mangler_function_some (Return : jnipp.jtype) (Args : list jnipp.jtype) :
  jnipp.mangler (jnipp.function Return Args)
  = (args_n ← mapM jnipp.mangler Args;
     ret_n ← jnipp.mangler Return;
     Some (["("%char] ++ concat args_n ++ [")"%char] ++ ret_n)).
Proof.
  change (jnipp.mangler (jnipp.function Return Args))
    with (args_n ← mapM jnipp.mangler Args;
          ret_n ← jnipp.mangler Return;
          jnipp.pack_join_all ([["("%char]] ++ args_n ++ [[")"%char]; ret_n])).
  destruct (mapM _ Args) as [args_n|]; [|done].
  destruct (jnipp.mangler Return) as [ret_n|]; [|done].
  cbn [mbind option_bind].
  rewrite pack_join_all_concat.
  - f_equal. cbn [app concat]. rewrite concat_app. cbn [concat].
    by rewrite app_nil_r.
  - rewrite !length_app. simpl. lia.
Qed.

Lemma mangler_function_is_Some (Return : jnipp.jtype) (Args : list jnipp.jtype) :
  is_Some (jnipp.mangler (jnipp.function Return Args))
  <-> is_Some (jnipp.mangler Return) /\
      Forall (fun a => is_Some (jnipp.mangler a)) Args.
Proof.
  rewrite mangler_function_some.
  pose proof (mapM_is_Some jnipp.mangler Args) as HM.
  destruct (mapM _ Args) as [args_n|].
  - destruct (jnipp.mangler Return) as [ret_n|]; simpl.
    + split; [|eauto]. intros _. split; [eauto|]. apply HM. eauto.
    + split; [by intros [? ?]|]. by intros [[? ?] _].
  - simpl. split; [by intros [? ?]|].
    intros [_ HF]. apply HM in HF. by destruct HF.
Qed.

Lemma mangler_is_Some (t : jnipp.jtype) :
  is_Some (jnipp.mangler t) <-> jnipp.mentions_void t = false.
Proof.
  induction t as [| | | | | | | | |L|t IH|Return Args IHR IHA]
    using jtype_nested_ind.
  - split; [by intros [? ?]|done].
  - split; [done|eauto].
  - split; [done|eauto].
  - split; [done|eauto].
  - split; [done|eauto].
  - split; [done|eauto].
  - split; [done|eauto].
  - split; [done|eauto].
  - split; [done|eauto].
  - split; [done|]. intros _. simpl. eauto.
  - simpl. rewrite <- IH. destruct (jnipp.mangler t); simpl.
    + split; eauto.
    + split; by intros [? ?].
  - rewrite mangler_function_is_Some.
    change (jnipp.mentions_void (jnipp.function Return Args))
      with (jnipp.mentions_void Return || existsb jnipp.mentions_void Args).
    rewrite orb_false_iff, existsb_false_Forall, IHR.
    by rewrite (Forall_pointwise_iff _ _ _ IHA).
Qed.

(** X24. A signature that mentions [void] nowhere has a descriptor, and so
    have its return type and each of its parameters: the signature's is
    "(" followed by the parameters' in order, ")" and the return type's;
    with no parameter it is "()" followed by the return type's.  Stated
    for the types function types really have. *)
Theorem function_descriptor_of_components
    (Return : jnipp.jtype) (Args : list jnipp.jtype) :
  jnipp.mentions_void (jnipp.function Return Args) = false ->
  jnipp.adjusted (jnipp.function Return Args) = true ->
  exists args_n ret_n,
    Forall2 (fun a p => jnipp.mangler a = Some p) Args args_n /\
    jnipp.mangler Return = Some ret_n /\
    jnipp.mangle (jnipp.function Return Args)
    = Some (["("%char] ++ concat args_n ++ [")"%char] ++ ret_n) /\
    (Args = [] ->
     jnipp.mangle (jnipp.function Return Args)
     = Some (["("%char; ")"%char] ++ ret_n)).
Proof.
  intros Hvoid _.
  change (jnipp.mentions_void (jnipp.function Return Args))
    with (jnipp.mentions_void Return || existsb jnipp.mentions_void Args)
    in Hvoid.
  apply orb_false_iff in Hvoid as [HvR HvA].
  apply mangler_is_Some in HvR as [ret_n HR].
  apply existsb_false_Forall in HvA.
  assert (HF : Forall (is_Some ∘ jnipp.mangler) Args).
  { eapply list.Forall_impl; [exact HvA|]. intros a Ha.
    by apply mangler_is_Some. }
  apply mapM_is_Some in HF as [args_n HM].
  assert (Hsig : jnipp.mangle (jnipp.function Return Args)
                 = Some (["("%char] ++ concat args_n ++ [")"%char] ++ ret_n)).
  { unfold jnipp.mangle. rewrite mangler_function_some.
    destruct (mapM _ Args) as [args_n'|]; [|done].
    injection HM as ->. by rewrite HR. }
  exists args_n, ret_n. split_and!; [by apply mapM_Some|done..|].
  intros ->. rewrite Hsig. by injection HM as <-.
Qed.

Lemma function_descriptor_of_components_witness :
  exists args_n ret_n,
    Forall2 (fun a p => jnipp.mangler a = Some p)
      [jnipp.jint; jnipp.jstring] args_n /\
    jnipp.mangler jnipp.jboolean = Some ret_n /\
    jnipp.mangle (jnipp.function jnipp.jboolean [jnipp.jint; jnipp.jstring])
    = Some (["("%char] ++ concat args_n ++ [")"%char] ++ ret_n) /\
    ([jnipp.jint; jnipp.jstring] = [] ->
     jnipp.mangle (jnipp.function jnipp.jboolean [jnipp.jint; jnipp.jstring])
     = Some (["("%char; ")"%char] ++ ret_n)).
Proof.
  apply (function_descriptor_of_components jnipp.jboolean
           [jnipp.jint; jnipp.jstring]); reflexivity.
Defined.

Lemma resolver_function_unfold (Return : jnipp.ctype) (Args : list jnipp.ctype) :
  jnipp.resolver_type (jnipp.c_function Return Args)
  = if jnipp.is_function Return then None
    else (ret_t ← jnipp.resolver_type Return;
          args_t ← mapM jnipp.resolver_parameter Args;
          Some (jnipp.function ret_t args_t)).
Proof. reflexivity. Qed.

Lemma resolver_scalar_facts (a : jnipp.ctype) (j : jnipp.jtype) :
  jnipp.is_function a = false -> jnipp.resolver_type a = Some j ->
  jnipp.integral_shape j = true /\
  jnipp.mentions_void j = jnipp.c_mentions_void a /\
  jnipp.mentions_floating a = false.
Proof.
  destruct a; intros Hf Hj; try discriminate; by injection Hj as <-.
Qed.

Lemma resolver_scalar_is_Some (a : jnipp.ctype) :
  jnipp.is_function a = false -> jnipp.mentions_floating a = false ->
  is_Some (jnipp.resolver_type a).
Proof. destruct a; intros Hf Hm; try discriminate; simpl; eauto. Qed.

Lemma resolver_parameter_Some (a : jnipp.ctype) (j : jnipp.jtype) :
  jnipp.resolver_parameter a = Some j <->
  jnipp.is_function a = false /\ jnipp.resolver_type a = Some j.
Proof.
  unfold jnipp.resolver_parameter.
  destruct (jnipp.is_function a); split; try done.
  - by intros [? _].
  - by intros [_ ?].
Qed.

Lemma resolver_parameter_is_Some (a : jnipp.ctype) :
  is_Some (jnipp.resolver_parameter a) <->
  jnipp.is_function a = false /\ jnipp.mentions_floating a = false.
Proof.
  split.
  - intros [j Hj]. apply resolver_parameter_Some in Hj as [Hf Hj].
    split; [done|]. by destruct (resolver_scalar_facts a j Hf Hj) as (_ & _ & ?).
  - intros [Hf Hm]. destruct (resolver_scalar_is_Some a Hf Hm) as [j Hj].
    exists j. by apply resolver_parameter_Some.
Qed.

Lemma resolver_parameters_is_Some (Args : list jnipp.ctype) :
  Forall (fun a => is_Some (jnipp.resolver_parameter a)) Args <->
  existsb jnipp.is_function Args = false /\
  existsb jnipp.mentions_floating Args = false.
Proof.
  induction Args as [|a Args IH]; simpl.
  - split; [done|constructor].
  - rewrite !orb_false_iff. split.
    + intros H. inversion H as [|? ? Ha HA]; subst.
      apply resolver_parameter_is_Some in Ha as [? ?].
      apply IH in HA as [? ?]. done.
    + intros [[? ?] [? ?]]. constructor.
      * by apply resolver_parameter_is_Some.
      * by apply IH.
Qed.

Lemma resolver_function_inv (Return : jnipp.ctype) (Args : list jnipp.ctype)
    (j : jnipp.jtype) :
  jnipp.resolver_type (jnipp.c_function Return Args) = Some j ->
  exists ret_t args_t,
    j = jnipp.function ret_t args_t /\
    jnipp.is_function Return = false /\
    jnipp.resolver_type Return = Some ret_t /\
    Forall2 (fun a t => jnipp.resolver_parameter a = Some t) Args args_t.
Proof.
  rewrite resolver_function_unfold.
  destruct (jnipp.is_function Return); [done|].
  destruct (jnipp.resolver_type Return) as [ret_t|]; simpl; [|done].
  destruct (mapM _ Args) as [args_t|] eqn:HM; simpl; [|done].
  intros [= <-]. exists ret_t, args_t. split_and!; [done..|].
  by apply mapM_Some.
Qed.

Lemma resolver_image (t : jnipp.ctype) :
  forall j, jnipp.resolver_type t = Some j ->
            jnipp.integral_shape j = true /\
            jnipp.mentions_void j = jnipp.c_mentions_void t.
Proof.
  intros j Hj. destruct t as [| | | | | | | | |Return Args].
  1-9: first [discriminate | by injection Hj as <-].
  apply resolver_function_inv in Hj
    as (ret_t & args_t & -> & HfR & HR & HA).
  destruct (resolver_scalar_facts _ _ HfR HR) as (HsR & HvR & _).
  change (jnipp.integral_shape (jnipp.function ret_t args_t))
    with (jnipp.integral_shape ret_t && forallb jnipp.integral_shape args_t).
  change (jnipp.mentions_void (jnipp.function ret_t args_t))
    with (jnipp.mentions_void ret_t || existsb jnipp.mentions_void args_t).
  change (jnipp.c_mentions_void (jnipp.c_function Return Args))
    with (jnipp.c_mentions_void Return || existsb jnipp.c_mentions_void Args).
  rewrite HsR, HvR. clear HR HsR HvR HfR.
  cut (forallb jnipp.integral_shape args_t = true /\
       existsb jnipp.mentions_void args_t
       = existsb jnipp.c_mentions_void Args).
  { intros [-> ->]. done. }
  induction HA as [|a t' Args args_t Ha HA IH]; [done|].
  apply resolver_parameter_Some in Ha as [Hfa Ha].
  destruct (resolver_scalar_facts _ _ Hfa Ha) as (Hs & Hv & _).
  destruct IH as [IHs IHv].
  simpl. by rewrite Hs, Hv, IHs, IHv.
Qed.

Lemma resolver_is_Some (t : jnipp.ctype) :
  is_Some (jnipp.resolver_type t) <->
  jnipp.mentions_floating t = false /\ jnipp.has_function_part t = false.
Proof.
  destruct t as [| | | | | | | | |Return Args].
  1-7: split; [done|eauto].
  1-2: split; [by intros [? ?]|by intros [? ?]].
  rewrite resolver_function_unfold.
  change (jnipp.mentions_floating (jnipp.c_function Return Args))
    with (jnipp.mentions_floating Return
          || existsb jnipp.mentions_floating Args).
  change (jnipp.has_function_part (jnipp.c_function Return Args))
    with (jnipp.is_function Return || existsb jnipp.is_function Args).
  rewrite !orb_false_iff.
  pose proof (mapM_is_Some jnipp.resolver_parameter Args) as HM.
  pose proof (resolver_parameters_is_Some Args) as HP.
  destruct (jnipp.is_function Return) eqn:HfR.
  { split; [by intros [? ?]|]. by intros [_ [? _]]. }
  split.
  - intros Hsome.
    destruct (jnipp.resolver_type Return) as [ret_t|] eqn:HR;
      [|by destruct Hsome].
    destruct (resolver_scalar_facts _ _ HfR HR) as (_ & _ & HmR).
    destruct (mapM _ Args) as [args_t|]; [|by destruct Hsome].
    assert (HF : Forall (fun a => is_Some (jnipp.resolver_parameter a)) Args).
    { apply HM. eauto. }
    apply HP in HF as [? ?]. done.
  - intros [[HmR HmA] [_ HfA]].
    destruct (resolver_scalar_is_Some _ HfR HmR) as [ret_t ->].
    assert (HF : Forall (fun a => is_Some (jnipp.resolver_parameter a)) Args)
      by (by apply HP).
    apply HM in HF as [args_t HA].
    simpl. destruct (mapM _ Args); [|done]. simpl. eauto.
Qed.

(** X3. A signature whose return type and parameters are none of [float],
    [double] and a function type resolves, and it resolves to the function
    type over what its return type and each parameter resolve to on their
    own, in the same order. *)
Theorem resolver_function_of_scalars
    (Return : jnipp.ctype) (Args : list jnipp.ctype) :
  jnipp.is_function Return = false ->
  jnipp.mentions_floating Return = false ->
  Forall (fun a => jnipp.is_function a = false /\
                   jnipp.mentions_floating a = false) Args ->
  exists ret_t args_t,
    jnipp.resolver_type Return = Some ret_t /\
    Forall2 (fun a t => jnipp.resolver_type a = Some t) Args args_t /\
    jnipp.resolver_type (jnipp.c_function Return Args)
    = Some (jnipp.function ret_t args_t).
Proof.
  intros HfR HmR HA.
  destruct (resolver_scalar_is_Some _ HfR HmR) as [ret_t HR].
  assert (Hargs : exists args_t,
             Forall2 (fun a t => jnipp.resolver_type a = Some t) Args args_t /\
             Forall2 (fun a t => jnipp.resolver_parameter a = Some t)
               Args args_t).
  { induction HA as [|a Args [Hfa Hma] _ IH].
    - exists []. split; constructor.
    - destruct IH as (args_t & H1 & H2).
      destruct (resolver_scalar_is_Some _ Hfa Hma) as [t Ht].
      exists (t :: args_t). split; constructor; try done.
      by apply resolver_parameter_Some. }
  destruct Hargs as (args_t & H1 & H2).
  exists ret_t, args_t. split_and!; [done..|].
  rewrite resolver_function_unfold, HfR, HR. simpl.
  apply mapM_Some in H2. by rewrite H2.
Qed.

Lemma resolver_function_of_scalars_witness :
  exists ret_t args_t,
    jnipp.resolver_type jnipp.c_void = Some ret_t /\
    Forall2 (fun a t => jnipp.resolver_type a = Some t)
      [jnipp.c_int32_t; jnipp.c_bool] args_t /\
    jnipp.resolver_type
      (jnipp.c_function jnipp.c_void [jnipp.c_int32_t; jnipp.c_bool])
    = Some (jnipp.function ret_t args_t).
Proof.
  apply (resolver_function_of_scalars jnipp.c_void
           [jnipp.c_int32_t; jnipp.c_bool]).
  - reflexivity.
  - reflexivity.
  - repeat constructor.
Defined.

(** X11. [pack_join_all] has a result exactly when it is given at least two
    packs, and the result is then their concatenation in order. *)
Theorem pack_join_all_closed_form (Ts : list jnipp.pack) :
  jnipp.pack_join_all Ts
  = if decide (2 <= length Ts) then Some (concat Ts) else None.
Proof.
  case_decide as Hlen.
  - by apply pack_join_all_concat.
  - destruct Ts as [|Left [|Right Rest]]; simpl in *; [done..|lia].
Qed.

(** X12. A type has a descriptor exactly when it mentions [void] nowhere;
    in particular no signature returning [void] has one, whatever its
    arguments. *)
Theorem mangler_none_iff_void :
  (forall t : jnipp.jtype,
      jnipp.mangler t = None <-> jnipp.mentions_void t = true) /\
  (forall Args : list jnipp.jtype,
      jnipp.mangle (jnipp.function jnipp.jvoid Args) = None).
Proof.
  assert (H : forall t, jnipp.mangler t = None <-> jnipp.mentions_void t = true).
  { intros t. pose proof (mangler_is_Some t) as Hs.
    destruct (jnipp.mangler t), (jnipp.mentions_void t); split; try done.
    - intros _. destruct Hs as [Hs _]. by specialize (Hs (mk_is_Some _ _ eq_refl)).
    - intros _. destruct Hs as [_ Hs]. by destruct (Hs eq_refl). }
  split; [exact H|]. intros Args. by apply H.
Qed.

(** X13. A native type resolves exactly when it mentions neither [float]
    nor [double] and, if it is a function type, neither its return type
    nor any parameter is written with a function type. *)
Theorem resolver_none_iff_floating (t : jnipp.ctype) :
  jnipp.resolver_type t = None <->
  jnipp.mentions_floating t = true \/ jnipp.has_function_part t = true.
Proof.
  pose proof (resolver_is_Some t) as Hs.
  destruct (jnipp.resolver_type t) as [j|].
  - destruct Hs as [Hs _]. destruct (Hs (mk_is_Some _ _ eq_refl)) as [-> ->].
    split; [done|]. by intros [?|?].
  - split; [intros _|done].
    destruct (jnipp.mentions_floating t); [by left|].
    destruct (jnipp.has_function_part t); [by right|].
    destruct Hs as [_ Hs]. by destruct (Hs (conj eq_refl eq_refl)).
Qed.

(** X14. What [resolver] produces is built from [void], the six integral
    JNI scalars and function types only (never [jfloat], [jdouble], a
    tagged class or a pointer), and it mentions [void] exactly where the
    native type does. *)
Theorem resolver_image_integral (t : jnipp.ctype) (j : jnipp.jtype) :
  jnipp.resolver_type t = Some j ->
  jnipp.integral_shape j = true /\
  jnipp.mentions_void j = jnipp.c_mentions_void t.
Proof. apply resolver_image. Qed.

Lemma resolver_image_integral_witness :
  jnipp.integral_shape
    (jnipp.function jnipp.jvoid [jnipp.jint; jnipp.jboolean]) = true /\
  jnipp.mentions_void
    (jnipp.function jnipp.jvoid [jnipp.jint; jnipp.jboolean])
  = jnipp.c_mentions_void
      (jnipp.c_function jnipp.c_void [jnipp.c_int32_t; jnipp.c_bool]).
Proof.
  apply (resolver_image_integral
           (jnipp.c_function jnipp.c_void [jnipp.c_int32_t; jnipp.c_bool])).
  reflexivity.
Defined.

(** X15. Resolving a native type and mangling the result gives a descriptor
    exactly when the native type mentions none of [void], [float] and
    [double] and, if it is a function type, neither its return type nor
    any parameter is written with a function type. *)
Theorem signature_descriptor_exists_iff (t : jnipp.ctype) :
  is_Some (jnipp.type t ≫= jnipp.mangle)
  <-> jnipp.mentions_floating t = false /\
      jnipp.c_mentions_void t = false /\
      jnipp.has_function_part t = false.
Proof.
  unfold jnipp.type, jnipp.mangle.
  pose proof (resolver_is_Some t) as Hs.
  destruct (jnipp.resolver_type t) as [j|] eqn:Hj; simpl.
  - destruct (resolver_image t j Hj) as [_ Hv].
    destruct Hs as [Hs _]. destruct (Hs (mk_is_Some _ _ eq_refl)) as [Hm Hp].
    rewrite mangler_is_Some, Hv. split; [by intros ?|by intros (_ & ? & _)].
  - split; [by intros [? ?]|]. intros (Hf & _ & Hp).
    destruct Hs as [_ Hs]. by destruct (Hs (conj Hf Hp)).
Qed.


(** X4. The descriptor of an [n]-fold pointer to [t] is [n] times '['
    followed by the descriptor of [t], and exists exactly when that one
    does. *)
Theorem mangler_pointers_descriptor (n : nat) (t : jnipp.jtype) :
  jnipp.mangler (jnipp.pointers n t)
  = (p ← jnipp.mangler t; Some (replicate n "["%char ++ p)).
Proof.
  induction n as [|n IH].
  - simpl. by destruct (jnipp.mangler t).
  - change (jnipp.pointers (S n) t)
      with (jnipp.pointer_to (jnipp.pointers n t)).
    rewrite mangler_pointer_descriptor, IH.
    by destruct (jnipp.mangler t).
Qed.

Lemma primitive_letter_not_nul (t : jnipp.jtype) (p : jnipp.pack) :
  t ∈ jnipp.primitives -> jnipp.mangler t = Some p ->
  Forall (fun ch => ch <> Ascii.zero) p.
Proof.
  unfold jnipp.primitives. intros Hin Hp.
  repeat (apply elem_of_cons in Hin as [->|Hin];
          [injection Hp as <-; by repeat constructor|]).
  by apply elem_of_nil in Hin.
Qed.

Lemma mangler_nul_free (t : jnipp.jtype) :
  forall p, jnipp.names_nul_free t = true -> jnipp.mangler t = Some p ->
            Forall (fun ch => ch <> Ascii.zero) p.
Proof.
  induction t as [| | | | | | | | |L|t IH|Return Args IHR IHA]
    using jtype_nested_ind; intros p Hn Hp.
  - discriminate.
  - eapply (primitive_letter_not_nul jnipp.jboolean); [|done].
    unfold jnipp.primitives. set_solver.
  - eapply (primitive_letter_not_nul jnipp.jbyte); [|done].
    unfold jnipp.primitives. set_solver.
  - eapply (primitive_letter_not_nul jnipp.jchar); [|done].
    unfold jnipp.primitives. set_solver.
  - eapply (primitive_letter_not_nul jnipp.jshort); [|done].
    unfold jnipp.primitives. set_solver.
  - eapply (primitive_letter_not_nul jnipp.jint); [|done].
    unfold jnipp.primitives. set_solver.
  - eapply (primitive_letter_not_nul jnipp.jlong); [|done].
    unfold jnipp.primitives. set_solver.
  - eapply (primitive_letter_not_nul jnipp.jfloat); [|done].
    unfold jnipp.primitives. set_solver.
  - eapply (primitive_letter_not_nul jnipp.jdouble); [|done].
    unfold jnipp.primitives. set_solver.
  - injection Hp as <-. simpl in Hn. apply forallb_true_Forall in Hn.
    unfold jnipp.detail._pack_join. simpl.
    constructor; [done|]. apply Forall_app. split; [|by repeat constructor].
    eapply list.Forall_impl; [exact Hn|]. intros ch Hch ->. done.
  - rewrite mangler_pointer_descriptor in Hp.
    destruct (jnipp.mangler t) as [q|]; [|done]. injection Hp as <-.
    constructor; [done|]. by apply IH.
  - rewrite mangler_function_some in Hp.
    change (jnipp.names_nul_free (jnipp.function Return Args))
      with (jnipp.names_nul_free Return
            && forallb jnipp.names_nul_free Args) in Hn.
    apply andb_true_iff in Hn as [HnR HnA].
    apply forallb_true_Forall in HnA.
    destruct (mapM _ Args) as [args_n|] eqn:HM; [|done].
    destruct (jnipp.mangler Return) as [ret_n|]; [|done].
    injection Hp as <-. apply mapM_Some in HM.
    constructor; [done|]. apply Forall_app. split.
    + clear IHR HnR. induction HM as [|a q Args args_n Ha HM IH]; [constructor|].
      inversion IHA; subst. inversion HnA; subst.
      simpl. apply Forall_app. split; eauto.
    + constructor; [done|]. by apply IHR.
Qed.

(** X10. When no name tag in a type has a NUL, its descriptor has none
    either, and the static array [str] read as a C string is the whole
    descriptor. *)
Theorem descriptor_is_whole_c_string (t : jnipp.jtype) (p : jnipp.pack) :
  jnipp.names_nul_free t = true -> jnipp.mangle t = Some p ->
  (Ascii.zero ∉ p) /\ jnipp.c_string (jnipp.str p) = string_of_list_ascii p.
Proof.
  intros Hn Hp. pose proof (mangler_nul_free t p Hn Hp) as HF.
  assert (Hz : Ascii.zero ∉ p).
  { intros Hin. by apply (proj1 (list.Forall_forall _ _) HF _ Hin). }
  split; [done|]. by apply c_string_str.
Qed.

Lemma descriptor_is_whole_c_string_witness :
  (Ascii.zero ∉ list_ascii_of_string "(Ljava/lang/String;)I") /\
  jnipp.c_string (jnipp.str (list_ascii_of_string "(Ljava/lang/String;)I"))
  = string_of_list_ascii (list_ascii_of_string "(Ljava/lang/String;)I").
Proof.
  apply (descriptor_is_whole_c_string
           (jnipp.function jnipp.jint [jnipp.jstring])); reflexivity.
Defined.

(** ** Strings built at run time *)

Lemma append_empty_r (s : string) : s +:+ EmptyString = s.
Proof.
  induction s as [|ch s IH]; [done|].
  change (String ch (s +:+ EmptyString) = String ch s). by f_equal.
Qed.

Lemma append_associative (a b c : string) : (a +:+ b) +:+ c = a +:+ b +:+ c.
Proof.
  induction a as [|ch a IH]; [done|].
  change (String ch ((a +:+ b) +:+ c) = String ch (a +:+ b +:+ c)).
  by f_equal.
Qed.

Lemma list_ascii_of_append (a b : string) :
  list_ascii_of_string (a +:+ b)
  = list_ascii_of_string a ++ list_ascii_of_string b.
Proof.
  induction a as [|ch a IH]; [done|].
  change (ch :: list_ascii_of_string (a +:+ b)
          = ch :: (list_ascii_of_string a ++ list_ascii_of_string b)).
  by f_equal.
Qed.

Lemma c_string_nul_free (p : list ascii) :
  Forall (fun ch => ch <> Ascii.zero) p ->
  jnipp.c_string p = string_of_list_ascii p.
Proof.
  induction 1 as [|ch p Hch _ IH]; simpl; [done|].
  destruct (Ascii.eqb ch Ascii.zero) eqn:Heq.
  - by apply Ascii.eqb_eq in Heq.
  - by rewrite IH.
Qed.

Lemma c_string_terminated (p : list ascii) :
  jnipp.c_string (p ++ [Ascii.zero]) = jnipp.c_string p.
Proof.
  induction p as [|ch p IH]; simpl; [done|].
  destruct (Ascii.eqb ch Ascii.zero); [done|]. by rewrite IH.
Qed.

Lemma pack_to_string_prefix (s : string) (xs : list jnipp.piece) :
  jnipp.pack_to_string s xs = s +:+ jnipp.pack_to_string EmptyString xs.
Proof.
  revert s. induction xs as [|x xs IH]; intros s; simpl.
  - by rewrite append_empty_r.
  - rewrite (IH (jnipp.append_piece s x)).
    rewrite (IH (jnipp.append_piece EmptyString x)).
    rewrite <- append_associative. f_equal.
    by destruct x.
Qed.

(** X17. [pack_to_string] keeps what the string held and appends the pieces
    in order: the result is the old content followed by what the same
    pieces give on an empty string, the pieces of two calls in a row add
    up, and the characters of a pack give the pack as a string, which as a
    C string is what the pack's static array [str] reads. *)
Theorem pack_to_string_appends :
  (forall (s : string) (xs : list jnipp.piece),
      jnipp.pack_to_string s xs
      = s +:+ String.concat EmptyString (map jnipp.text xs)) /\
  (forall (s : string) (xs ys : list jnipp.piece),
      jnipp.pack_to_string (jnipp.pack_to_string s xs) ys
      = jnipp.pack_to_string s (xs ++ ys)) /\
  (forall p : jnipp.pack,
      jnipp.pack_to_string EmptyString (map jnipp.a_char p)
      = string_of_list_ascii p /\
      jnipp.c_str (jnipp.pack_to_string EmptyString (map jnipp.a_char p))
      = jnipp.c_string (jnipp.str p) /\
      jnipp.pack_to_string EmptyString [jnipp.a_c_string (jnipp.str p)]
      = jnipp.c_string (jnipp.str p)).
Proof.
  assert (Hchars : forall p : jnipp.pack,
             jnipp.pack_to_string EmptyString (map jnipp.a_char p)
             = string_of_list_ascii p).
  { induction p as [|ch p IH]; simpl; [done|].
    by rewrite pack_to_string_prefix, IH. }
  split_and!.
  - intros s xs. rewrite pack_to_string_prefix. f_equal.
    induction xs as [|x xs IH]; simpl; [done|].
    rewrite pack_to_string_prefix, IH.
    destruct xs as [|y xs]; simpl.
    + rewrite append_empty_r. by destruct x.
    + by destruct x.
  - intros s xs ys. revert s.
    induction xs as [|x xs IH]; intros s; simpl; [done|]. apply IH.
  - intros p. split_and!.
    + apply Hchars.
    + rewrite Hchars. unfold jnipp.c_str, jnipp.str.
      by rewrite list_ascii_of_string_of_list_ascii, c_string_terminated.
    + done.
Qed.

(** ** Errors of the runtime *)

(** X18. [fatal()] on the error that [find_class] returns for a missing
    class, whose name has no NUL: the runtime's [FatalError] is called on
    the environment's own [JNIEnv] with the complete message. *)
Theorem fatal_after_find_class (self : jnipp.environment) (name : string)
    (f0 : bool) (w : ornew.world jnipp.clas jnipp.jni_error) :
  jnipp.FindClass (jnipp.env self) (jnipp.c_str name) = None ->
  Forall (fun ch => ch <> Ascii.zero) (list_ascii_of_string name) ->
  exists l err,
    ornew.e (jnipp.find_class self name f0 w).1 = Some l /\
    ornew.heap (jnipp.find_class self name f0 w).2 !! l = Some err /\
    jnipp.fatal err
    = jnipp.FatalError (jnipp.env self)
        ("Not found: " +:+ name +:+ " in env::find_class function.").
Proof.
  intros Hnull Hname. unfold jnipp.find_class. rewrite Hnull.
  eexists (fresh (dom (ornew.heap w))), _. split_and!.
  - by destruct w.
  - destruct w as [tr h]. simpl. apply lookup_insert_eq.
  - unfold jnipp.fatal. simpl. f_equal.
    change (jnipp.message (jnipp.jni_error_new (jnipp.env self)
              ("Not found: " +:+ name +:+ " in env::find_class function.")))
      with ("Not found: " +:+ name +:+ " in env::find_class function.").
    unfold jnipp.c_str. rewrite c_string_nul_free.
    + apply string_of_list_ascii_of_string.
    + rewrite !list_ascii_of_append. rewrite !Forall_app. split_and!.
      * by repeat constructor.
      * done.
      * by repeat constructor.
Qed.

Lemma fatal_after_find_class_witness :
  let jni := {| jnipp.FindClass := fun _ => None;
                jnipp.GetMethodID := fun _ _ _ => None |} in
  let w := {| ornew.calls := []; ornew.heap := ∅ |} in
  exists l err,
    ornew.e (jnipp.find_class {| jnipp.env := jni |} "a/B" false w).1 = Some l /\
    ornew.heap (jnipp.find_class {| jnipp.env := jni |} "a/B" false w).2 !! l
    = Some err /\
    jnipp.fatal err
    = jnipp.FatalError jni ("Not found: " +:+ "a/B" +:+ " in env::find_class function.").
Proof.
  intros jni w.
  apply (fatal_after_find_class {| jnipp.env := jni |} "a/B" false w).
  - reflexivity.
  - repeat constructor; discriminate.
Defined.

(** ** More on the cell *)
Section storage_balance.
Import ornew.
Context {T : Type}.
Implicit Types (c : storage T) (tr : trace T).

Lemma constructed_snoc tr (ev : event T) :
  constructed (tr ++ [ev]) = constructed tr ++ constructed_of ev.
Proof.
  unfold constructed. rewrite map_app, concat_app. simpl.
  by rewrite app_nil_r.
Qed.

Lemma destruct_balanced c tr :
  balanced c tr ->
  balanced (destruct c tr).1 (destruct c tr).2 /\
  pending (destruct c tr).1 = [].
Proof.
  intros [Hbal Hobj]. unfold balanced, pending in *.
  destruct (flag c) eqn:Hf.
  - rewrite destruct_occupied by done. simpl.
    rewrite destroyed_snoc, constructed_snoc. simpl.
    rewrite !app_nil_r. split_and!; [|done..].
    rewrite <- Hbal. by destruct (buf c).
  - rewrite destruct_unoccupied by done. simpl. rewrite Hf.
    split_and!; [done..|]. by destruct (buf c).
Qed.

Lemma step_balanced (o : call T) c tr :
  balanced c tr -> balanced (step o c tr).1 (step o c tr).2.
Proof.
  intros H. apply destruct_balanced in H as [[Hbal Hobj] Hpend].
  destruct o as [v| |a]; simpl.
  - rewrite construct_unfold. unfold balanced, pending. simpl.
    rewrite destroyed_snoc, constructed_snoc. simpl.
    rewrite app_nil_r. rewrite Hpend, app_nil_r in Hbal.
    split; [by rewrite Hbal|done].
  - done.
  - rewrite assign_unfold. unfold balanced, pending. simpl.
    rewrite destroyed_snoc, constructed_snoc. simpl.
    rewrite !app_nil_r. rewrite Hpend, app_nil_r in Hbal.
    split.
    + rewrite Hbal. destruct a; simpl; by rewrite app_nil_r.
    + intros i v Hw. by destruct a.
Qed.

Lemma run_balanced (os : list (call T)) c tr :
  balanced c tr -> balanced (run os c tr).1 (run os c tr).2.
Proof.
  revert c tr. induction os as [|o os IH]; intros c tr H; simpl; [done|].
  unfold bind. pose proof (step_balanced o c tr H) as Hs.
  destruct (step o c tr) as [c' tr']. by apply IH.
Qed.

Lemma assign_uninitialized (f0 : bool) (a : option T) tr :
  Forall (fun ev => instance_free ev = true) tr ->
  flag (assign a (uninitialized f0) tr).1 = false /\
  (forall i v, buf (assign a (uninitialized f0) tr).1 <> object i v) /\
  Forall (fun ev => instance_free ev = true) (assign a (uninitialized f0) tr).2.
Proof.
  intros Htr. rewrite assign_unfold. simpl. split_and!.
  - apply destruct_flag.
  - intros i v. by destruct a.
  - destruct f0; simpl.
    + rewrite !Forall_app. split_and!; [done|by constructor..].
    + rewrite Forall_app. split; [done|by constructor].
Qed.
End storage_balance.

(** X19. Over the whole life of a cell, however its flag started and
    whatever calls were made on it, the instances destroyed are exactly the
    instances constructed in it, in the same order and each once: none
    leaks and none is destroyed twice. *)
Theorem every_instance_destroyed_once (T : Type) (f0 : bool)
    (os : list (ornew.call T)) :
  ornew.destroyed (ornew.lifetime f0 os []).2
  = ornew.constructed (ornew.lifetime f0 os []).2 /\
  NoDup (ornew.constructed (ornew.lifetime f0 os []).2).
Proof.
  assert (Heq : ornew.destroyed (ornew.lifetime f0 os []).2
                = ornew.constructed (ornew.lifetime f0 os []).2).
  { unfold ornew.lifetime, bind, ornew.teardown.
    assert (H0 : ornew.balanced (ornew.uninitialized (T:=T) f0) []) by done.
    pose proof (run_balanced os _ _ H0) as H.
    destruct (ornew.run os (ornew.uninitialized f0) []) as [c tr].
    apply destruct_balanced in H as [[Hbal _] Hpend]. simpl in *.
    destruct (ornew.destruct c tr) as [c' tr']. simpl in *.
    by rewrite Hpend, app_nil_r in Hbal. }
  split; [done|]. rewrite <- Heq.
  unfold ornew.lifetime, bind, ornew.teardown.
  assert (H0 : ornew.tracked (ornew.uninitialized (T:=T) f0) []).
  { split_and!; [constructor| |done]. intros i Hi. by apply elem_of_nil in Hi. }
  pose proof (run_tracked os _ _ H0) as H.
  destruct (ornew.run os (ornew.uninitialized f0) []) as [c tr].
  apply destruct_tracked in H. simpl in H.
  destruct (ornew.destruct c tr). apply H.
Qed.

(** X25. After [b = a] with the implicit copy assignment, [a] holding an
    instance just constructed: whatever [b] was before, the destructors of
    the two cells run [T]'s destructor twice on that one instance, and
    nothing is called on what [b] held before. *)
Theorem copy_assigned_cell_destroys_again (T : Type) (v : T)
    (b : ornew.storage T) (tr : ornew.trace T) :
  (let! a := ornew.construct v ornew.storage_nullptr in
   let! b' := ornew.copy_assign a b in
   let! b'' := ornew.teardown b' in
   ornew.teardown a)%state tr
  = ({| ornew.buf := ornew.indeterminate; ornew.flag := false |},
     tr ++ [ornew.Construct (length tr) v;
            ornew.Destroy (ornew.object (length tr) v);
            ornew.Destroy (ornew.object (length tr) v)]).
Proof.
  unfold bind, ornew.teardown, ornew.copy_assign, ret.
  rewrite construct_unfold. simpl.
  rewrite !destruct_occupied by done. simpl.
  by rewrite <- !app_assoc.
Qed.

(** ** More on results *)
Section unoccupied_results.
Import ornew.
Context {R E : Type}.
Implicit Types (w : world R E) (x : expected R) (L : gmap nat (obj R)).

Lemma unoccupied_insert L (k : nat) (o : obj R) :
  (forall x, o = a_result x ->
     flag (r x) = false /\ forall i v, buf (r x) <> object i v) ->
  (forall n x, L !! n = Some (a_result x) ->
     flag (r x) = false /\ forall i v, buf (r x) <> object i v) ->
  forall n x, <[k := o]> L !! n = Some (a_result x) ->
    flag (r x) = false /\ forall i v, buf (r x) <> object i v.
Proof.
  intros Ho HL n x. destruct (decide (n = k)) as [->|Hne].
  - rewrite lookup_insert_eq. intros [= ->]. by apply Ho.
  - rewrite lookup_insert_ne by done. apply HL.
Qed.

Lemma unoccupied_delete L (k : nat) :
  (forall n x, L !! n = Some (a_result x) ->
     flag (r x) = false /\ forall i v, buf (r x) <> object i v) ->
  forall n x, delete k L !! n = Some (a_result x) ->
    flag (r x) = false /\ forall i v, buf (r x) <> object i v.
Proof.
  intros HL n x. destruct (decide (n = k)) as [->|Hne].
  - by rewrite lookup_delete_eq.
  - rewrite lookup_delete_ne by done. apply HL.
Qed.

Lemma exec_never_occupied (s : stmt R E) (p : program_state R E) :
  never_occupied p -> never_occupied (exec s p).
Proof.
  destruct p as [L w]. intros [HL Htr]. simpl in HL, Htr.
  destruct s as [err| |f0 a|n|f0 n|n]; unfold exec; cbn [live mem].
  - destruct w as [tr h]. split; [|done]. simpl.
    apply unoccupied_insert; [done|exact HL].
  - split; [|done]. simpl.
    apply unoccupied_insert; [|exact HL]. intros x [= <-]. done.
  - rewrite expected_value_unfold.
    destruct (assign_uninitialized f0 (Some a) (calls w) Htr) as (Hf & Hb & Hc).
    split; [|exact Hc]. simpl.
    apply unoccupied_insert; [|exact HL]. intros x [= <-]. by split.
  - destruct (L !! n) as [[u|x]|] eqn:Hn; try done.
    destruct u as [ptr]. rewrite expected_unexpected_unfold.
    split; [|done]. simpl.
    apply unoccupied_insert; [by intros x [= <-]|].
    apply unoccupied_insert; [done|exact HL].
  - destruct (L !! n) as [[u|x]|] eqn:Hn; try done.
    rewrite expected_move_unfold.
    destruct (assign_uninitialized f0 (raw (r x)) (calls w) Htr)
      as (Hf & Hb & Hc).
    split; [|exact Hc]. simpl.
    apply unoccupied_insert; [intros y [= <-]; by split|].
    apply unoccupied_insert; [|exact HL].
    intros y [= <-]. simpl. by apply (HL n).
  - destruct (L !! n) as [[u|x]|] eqn:Hn; try done.
    + destruct w as [tr h]. split; [|done]. simpl.
      by apply unoccupied_delete.
    + destruct (HL n x Hn) as [Hf _].
      unfold expected_dtor, bind, on_calls, on_heap, teardown.
      rewrite destruct_unoccupied by done. simpl.
      split; [|done]. simpl. by apply unoccupied_delete.
Qed.
Lemma start_never_occupied : never_occupied (start (R:=R) (E:=E)).
Proof.
  split; [|constructor]. intros n x Hn. simpl in Hn.
  by rewrite lookup_empty in Hn.
Qed.

Lemma exec_all_never_occupied (ss : list (stmt R E)) (p : program_state R E) :
  never_occupied p -> never_occupied (exec_all ss p).
Proof.
  revert p. induction ss as [|s ss IH]; intros p Hp; simpl; [done|].
  by apply IH, exec_never_occupied.
Qed.
End unoccupied_results.

(** X20. In every program over builders and results no result is ever
    occupied: the flag of its cell is false and no [R] was constructed in
    its buffer, so the success state is never reached; the calls made on
    [R] are copy assignments and destructor calls on buffers that hold no
    instance. *)
Theorem results_never_occupied (R E : Type) (ss : list (ornew.stmt R E)) :
  ornew.never_occupied (ornew.exec_all ss ornew.start) /\
  forall n x, ~ (ornew.live (ornew.exec_all ss ornew.start) !! n
                 = Some (ornew.a_result x) /\ ornew.is_success x).
Proof.
  pose proof (exec_all_never_occupied ss _ (start_never_occupied (R:=R) (E:=E)))
    as H.
  split; [exact H|].
  intros n x [Hn [_ Hflag]]. destruct H as [HL _].
  destruct (HL n x Hn) as [Hf _]. congruence.
Qed.

(** X21. A program that has ended every object it declared leaves no error
    on the heap. *)
Theorem no_error_outlives_its_owner (R E : Type) (ss : list (ornew.stmt R E)) :
  ornew.live (ornew.exec_all ss ornew.start) = ∅ ->
  ornew.heap (ornew.mem (ornew.exec_all ss ornew.start)) = ∅.
Proof.
  intros Hlive.
  destruct (exec_all_ownership ss _ (start_ownership (R:=R) (E:=E)))
    as (_ & _ & HC).
  apply map_empty. intros l.
  destruct (ornew.heap (ornew.mem (ornew.exec_all ss ornew.start)) !! l)
    as [err|] eqn:Hl; [|done].
  destruct (HC l (mk_is_Some _ _ Hl)) as (n & o & Ho & _).
  rewrite Hlive, lookup_empty in Ho. done.
Qed.

Lemma no_error_outlives_its_owner_witness :
  ornew.heap
    (ornew.mem
       (ornew.exec_all
          [ornew.s_raise "boom"%string; ornew.s_convert 0; ornew.s_move true 1;
           ornew.s_end 1; ornew.s_end 0; ornew.s_end 2]
          (ornew.start (R:=nat) (E:=string)))) = ∅.
Proof.
  apply (no_error_outlives_its_owner nat string). vm_compute. reflexivity.
Defined.

(** X22. A failure returned by [find_class] and then destroyed leaves the
    memory as it was before the call: the one error allocated is freed and
    nothing is called on the class wrapper type. *)
Theorem find_class_failure_is_freed (self : jnipp.environment) (name : string)
    (f0 : bool) (w : ornew.world jnipp.clas jnipp.jni_error) :
  jnipp.FindClass (jnipp.env self) (jnipp.c_str name) = None ->
  (let! x := jnipp.find_class self name f0 in ornew.expected_dtor x)%state w
  = (tt, w).
Proof.
  intros Hnull. unfold jnipp.find_class. rewrite Hnull.
  destruct w as [tr h].
  unfold bind, ornew.expected_unexpected, ornew.expected_dtor, ornew.on_heap,
    ornew.on_calls, ornew.teardown, ornew.unique_ptr_dtor, ornew.delete_error.
  simpl. unfold bind. simpl. f_equal. f_equal.
  apply delete_insert_id, not_elem_of_dom, is_fresh.
Qed.

Lemma find_class_failure_is_freed_witness :
  let jni := {| jnipp.FindClass := fun _ => None;
                jnipp.GetMethodID := fun _ _ _ => None |} in
  let w := {| ornew.calls := []; ornew.heap := ∅ |} in
  (let! x := jnipp.find_class {| jnipp.env := jni |} "com/example/Missing" true in
   ornew.expected_dtor x)%state w
  = (tt, w).
Proof.
  intros jni w.
  apply (find_class_failure_is_freed {| jnipp.env := jni |}
           "com/example/Missing" true w).
  reflexivity.
Defined.

(** X23. A result built from a value, from a cell or from nothing has a
    null error and an unoccupied cell, so by pointer and flag all three are
    in the default state; the buffer reads the value given (what the given
    cell reads), and no error is allocated. *)
Theorem value_results_look_default (R E : Type) (f0 : bool) (a : R)
    (c : ornew.storage R) (w : ornew.world R E) :
  let x := (ornew.expected_value f0 a w).1 in
  let y := (ornew.expected_storage f0 c w).1 in
  (ornew.is_default x /\ ornew.raw (ornew.r x) = Some a /\
   ornew.heap (ornew.expected_value f0 a w).2 = ornew.heap w) /\
  (ornew.is_default y /\ ornew.raw (ornew.r y) = ornew.raw c /\
   ornew.heap (ornew.expected_storage f0 c w).2 = ornew.heap w) /\
  ornew.is_default (ornew.expected_default (R:=R)).
Proof.
  intros x y. subst x y. unfold ornew.is_default.
  rewrite expected_value_unfold.
  unfold ornew.expected_storage, bind, ornew.on_calls, ret.
  destruct (ornew.storage_copy f0 c (ornew.calls w)) as [c' tr'] eqn:Hcopy.
  pose proof (f_equal fst Hcopy) as Hc'. simpl in Hc'. subst c'.
  unfold ornew.storage_value, ornew.storage_copy.
  rewrite !assign_unfold. simpl. rewrite !destruct_flag.
  split_and!; try done.
  unfold ornew.raw at 1. simpl. by destruct (ornew.raw c).
Qed.
